(** * Record Flags: the two Lightning web components

    A shallow embedding of [recordFlags] (the parent component, whose
    JavaScript is listed in the repository's README) and of
    [recordFlagFetcher] (the child component), with the properties of
    the orchestration they implement.

    Conventions of the embedding.
    - A JavaScript string is a [string]: a sequence of code units below
      256.  [JSON.stringify] is embedded on the objects the components
      handle, with the quoting rules of ECMA-262 (QuoteJSONString).
    - The flag objects that a child hands to its parent inside the
      [errorreceive] event are *shared* between the two components (the
      event detail is the child's own array, the parent stores the very
      objects and later assigns to their [body]).  These objects live in
      a store ([heap]) and are referred to by location.  Objects that
      never leave the component that created them are kept by value.
    - Promises are embedded by their continuations: the [then] and the
      [catch] callback of a call are separate transitions, fired by the
      environment.
    - Every call of an Apex method and every dispatched event is written
      to a log. *)

From Stdlib Require Import Ascii String DecimalString DecimalNat Sorted.
From stdpp Require Import base list strings.

Set Default Proof Using "Type".

#[local] Arguments String.append _ _ : simpl nomatch.

(** ** JavaScript strings *)

Module Js.

(** [occurs c s]: the code unit [c] occurs in [s]. *)
Fixpoint occurs (c : ascii) (s : string) : bool :=
match s with
| EmptyString => false
| String a s' => Ascii.eqb c a || occurs c s'
end.

(** [String.prototype.startsWith]. *)
Fixpoint startsWith (s needle : string) {struct needle} : bool :=
match needle with
| EmptyString => true
| String x needle' =>
    match s with
    | EmptyString => false
    | String a s' => Ascii.eqb x a && startsWith s' needle'
    end
end.

(** [String.prototype.includes]. *)
Fixpoint includes (s needle : string) : bool :=
startsWith s needle ||
match s with
| EmptyString => false
| String _ s' => includes s' needle
end.

(** [Array.prototype.join]. *)
Fixpoint join (sep : string) (l : list string) : string :=
match l with
| [] => ""
| [x] => x
| x :: l' => x +:+ sep +:+ join sep l'
end.

(** The string ["\n"] of the source: one line feed. *)
Definition LF : string := String (ascii_of_nat 10) "".

(** Number-to-string conversion of an array index. *)
Definition index_to_string (i : nat) : string :=
NilEmpty.string_of_uint (Nat.to_uint i).

(** String conversion of an optional string property in a
  concatenation: an absent property reads [undefined]. *)
Definition to_string (o : option string) : string :=
match o with
| Some s => s
| None => "undefined"
end.

(** Truthiness of an optional string property: absent and empty are
  falsy. *)
Definition truthy_string (o : option string) : bool :=
match o with
| Some (String _ _) => true
| _ => false
end.

(** Truthiness of a field that holds a number or nothing: [undefined]
    and [0] are falsy. *)
Definition truthy_number (o : option nat) : bool :=
  match o with
  | Some (S _) => true
  | _ => false
  end.

(** Strict equality [===] of two optional string properties. *)
Definition strict_eq (a b : option string) : bool :=
match a, b with
| Some x, Some y => String.eqb x y
| None, None => true
| _, _ => false
end.

End Js.

(** ** JSON text *)

Module Json.

Definition hex_digit (n : nat) : ascii :=
match n with
| 0 => "0" | 1 => "1" | 2 => "2" | 3 => "3" | 4 => "4" | 5 => "5"
| 6 => "6" | 7 => "7" | 8 => "8" | 9 => "9" | 10 => "a" | 11 => "b"
| 12 => "c" | 13 => "d" | 14 => "e" | _ => "f"
end%char.

(** The escape of one code unit (QuoteJSONString, step 2). *)
Definition escape_char (c : ascii) : string :=
let n := nat_of_ascii c in
if Nat.eqb n 8 then "\b"
else if Nat.eqb n 9 then "\t"
else if Nat.eqb n 10 then "\n"
else if Nat.eqb n 12 then "\f"
else if Nat.eqb n 13 then "\r"
else if Nat.eqb n 34 then String "\" (String c "")
else if Nat.eqb n 92 then "\\"
else if Nat.ltb n 32 then
  "\u00" +:+ String (hex_digit (n / 16)) (String (hex_digit (n mod 16)) "")
else String c "".

Fixpoint escape (s : string) : string :=
match s with
| EmptyString => ""
| String c s' => escape_char c +:+ escape s'
end.

Definition dq : ascii := ascii_of_nat 34.

(** QuoteJSONString. *)
Definition quote (s : string) : string :=
String dq (escape s +:+ String dq "").

(** One property of an object: [key:value]. *)
Definition prop (k v : string) : string :=
quote k +:+ String ":" v.

(** A property that is left out when its value is [undefined]. *)
Definition opt_prop {A} (k : string) (f : A → string) (o : option A) : list string :=
match o with
| Some a => [prop k (f a)]
| None => []
end.

Definition object (props : list string) : string :=
String "{" (Js.join "," props +:+ "}").

Definition array (items : list string) : string :=
String "[" (Js.join "," items +:+ "]").

Definition bool (b : bool) : string := if b then "true" else "false".

End Json.

(** ** The data the components exchange *)

(** [RecordFlag.FlagVariant] (README, Apex classes). *)
Inductive FlagVariant := NORMAL | SUCCESS | WARNING | ERROR.

Definition variant_name (v : FlagVariant) : string :=
  match v with
  | NORMAL => "NORMAL"
  | SUCCESS => "SUCCESS"
  | WARNING => "WARNING"
  | ERROR => "ERROR"
  end.

(** [RecordFlagButton(name, url)]; [key] is the property the child
    component adds. *)
Module Button.
Record t := mk { name : string; url : string; key : option string }.

Definition set_key (k : string) (b : t) : t :=
  {| name := name b; url := url b; key := Some k |}.

Definition stringify (b : t) : string :=
  Json.object
    ([Json.prop "name" (Json.quote (name b));
      Json.prop "url" (Json.quote (url b))]
     ++ Json.opt_prop "key" Json.quote (key b)).
End Button.

(** [RecordFlag(variant, header, body, buttons)], as the Apex method
    [RecordFlags.invokeFetcher] returns it.  A [null] body or button
    list is an absent property of the JavaScript object. *)
Module RecordFlag.
Record t := mk {
  variant : FlagVariant;
  header : string;
  body : option string;
  buttons : option (list Button.t)
}.

Definition set_body (b : option string) (v : t) : t :=
  {| variant := variant v; header := header v; body := b;
     buttons := buttons v |}.

Definition set_buttons (bs : option (list Button.t)) (v : t) : t :=
  {| variant := variant v; header := header v; body := body v;
     buttons := bs |}.

Definition props (v : t) : list string :=
  [Json.prop "variant" (Json.quote (variant_name (variant v)));
   Json.prop "header" (Json.quote (header v))]
  ++ Json.opt_prop "body" Json.quote (body v)
  ++ Json.opt_prop "buttons"
       (fun bs => Json.array (map Button.stringify bs)) (buttons v).

(** [JSON.stringify(value)]. *)
Definition stringify (v : t) : string := Json.object (props v).
End RecordFlag.

(** The object the child component builds from a [RecordFlag]:
    [{...value, key, showDetails, varientCSS, hasButtons, isClicked}].
    [JSON.stringify] lists the properties in creation order; the
    embedding lists [body] in its declared place also when the property
    was created by a later assignment. *)
Module Flag.
Record t := mk {
  value : RecordFlag.t;
  key : string;
  showDetails : bool;
  varientCSS : string;
  hasButtons : bool;
  isClicked : bool
}.

Definition body (f : t) : option string := RecordFlag.body (value f).

Definition set_body (b : option string) (f : t) : t :=
  {| value := RecordFlag.set_body b (value f); key := key f;
     showDetails := showDetails f; varientCSS := varientCSS f;
     hasButtons := hasButtons f; isClicked := isClicked f |}.

Definition set_showDetails (b : bool) (f : t) : t :=
  {| value := value f; key := key f; showDetails := b;
     varientCSS := varientCSS f; hasButtons := hasButtons f;
     isClicked := isClicked f |}.

Definition set_isClicked (b : bool) (f : t) : t :=
  {| value := value f; key := key f; showDetails := showDetails f;
     varientCSS := varientCSS f; hasButtons := hasButtons f;
     isClicked := b |}.

Definition props (f : t) : list string :=
  RecordFlag.props (value f)
  ++ [Json.prop "key" (Json.quote (key f));
      Json.prop "showDetails" (Json.bool (showDetails f));
      Json.prop "varientCSS" (Json.quote (varientCSS f));
      Json.prop "hasButtons" (Json.bool (hasButtons f));
      Json.prop "isClicked" (Json.bool (isClicked f))].

(** [JSON.stringify(flag)]. *)
Definition stringify (f : t) : string := Json.object (props f).

(** [JSON.parse(JSON.stringify(flag))]: a new object with the same
    properties, button objects included. *)
Definition clone_button (b : Button.t) : Button.t :=
  Button.mk (Button.name b) (Button.url b) (Button.key b).

Definition clone (f : t) : t :=
  mk (RecordFlag.mk (RecordFlag.variant (value f)) (RecordFlag.header (value f))
        (RecordFlag.body (value f))
        (option_map (map clone_button) (RecordFlag.buttons (value f))))
     (key f) (showDetails f) (varientCSS f) (hasButtons f) (isClicked f).

Definition dummy : t :=
  mk (RecordFlag.mk NORMAL "" None None) "" false "" false false.
End Flag.

#[global] Instance flag_inhabited : Inhabited Flag.t := populate Flag.dummy.

(** [Record_Flag__mdt] (README, Custom Metadata). *)
Module Mdt.
Record t := mk {
  Apex_Class_Name__c : option string;
  Custom_Permission__c : option string;
  Flow_Class_Name__c : option string;
  Is_Active__c : bool;
  Is_Data_Fetcher__c : bool;
  Object__c : string;
  Order__c : Z
}.
End Mdt.

(** The shared record: an [SObject] with its [Id] and the queried
    fields. *)
Module SObject.
Record t := mk { Id : string; fields : list (string * string) }.
End SObject.

(** The value [RecordFlags.getFetchers] resolves with. *)
Module Fetchers.
Record t := mk { fetchers : list Mdt.t; sharedData : option SObject.t }.
End Fetchers.

(** The error object of a rejected call, as far as [handleError] reads
    it: [error.body.output.errors[i].message] and [error.body.message]. *)
Module JsError.
Record entry := mk_entry { entry_message : option string }.
Record body_t := mk_body {
  output_errors : option (list entry);
  message : option string
}.
Record t := mk { body : option body_t }.

(** The [TypeError] of reading [length] of [null]: it has no [body]. *)
Definition type_error : t := mk None.
End JsError.

(** A location of the store of shared flag objects. *)
Definition loc := nat.

(** What the components do to the outside. *)
Inductive Effect :=
| ApexGetFetchers (recordId objectName : option string)
| ApexInvokeFetcher (sharedData : option SObject.t) (fetcherConfig : option Mdt.t)
| ConsoleLog (result : Fetchers.t)
| RegisterRefreshHandler (id : nat)
| UnregisterRefreshHandler (id : nat)
| ErrorReceive (detail : list loc)
| ShowToast (title message variant : string).

(** The events that report an error: [errorreceive], and a toast of
    variant [error]. *)
Definition is_error_event (e : Effect) : bool :=
  match e with
  | ErrorReceive _ => true
  | ShowToast _ _ variant => String.eqb variant "error"
  | _ => false
  end.

(** ** State *)

(** The fields of the parent component [recordFlags]. *)
Module ParentState.
Record t := mk {
  recordId : option string;
  objectApiName : option string;
  haveFlags : bool;
  haveErrors : bool;
  listOfActiveMdt : list Mdt.t;
  existingFlag : list loc;
  record : option SObject.t;
  refreshHandlerID : option nat
}.

(** The field initialisers of the class. *)
Definition init (recordId objectApiName : option string) : t :=
  mk recordId objectApiName false false [] [] None None.
End ParentState.

(** The fields of one child component [recordFlagFetcher] (the public
    properties it never reads are left out). *)
Module ChildState.
Record t := mk {
  errorRecordFlag : option loc;
  listOfRecordFlags : list Flag.t;
  loading : bool;
  mdtRecord : option Mdt.t;
  record : option SObject.t;
  list : list loc
}.

Definition init (errorRecordFlag : option loc) (mdtRecord : option Mdt.t)
    (record : option SObject.t) : t :=
  mk errorRecordFlag [] true mdtRecord record [].

Definition set_loading (b : bool) (c : t) : t :=
  mk (errorRecordFlag c) (listOfRecordFlags c) b (mdtRecord c) (record c) (list c).

Definition set_listOfRecordFlags (l : Datatypes.list Flag.t) (c : t) : t :=
  mk (errorRecordFlag c) l (loading c) (mdtRecord c) (record c) (list c).

Definition set_list (l : Datatypes.list loc) (c : t) : t :=
  mk (errorRecordFlag c) (listOfRecordFlags c) (loading c) (mdtRecord c) (record c) l.
End ChildState.

(** The parent component, the store of the flag objects it shares with
    its children, and the log of effects. *)
Record World := mkWorld {
  heap : list Flag.t;
  parent : ParentState.t;
  log : list Effect
}.

Definition set_heap (h : list Flag.t) (w : World) : World :=
  mkWorld h (parent w) (log w).

Definition set_parent (p : ParentState.t) (w : World) : World :=
  mkWorld (heap w) p (log w).

Definition emit (e : Effect) (w : World) : World :=
  mkWorld (heap w) (parent w) (log w ++ [e]).

(** ** The parent component [recordFlags] *)

Definition component_error : string := "Component Error".

Module Parent.
Import ParentState.

(** [showToast(theTitle, theMessage, theVariant)]. *)
Definition showToast (theTitle theMessage theVariant : string) (w : World) : World :=
  emit (ShowToast theTitle theMessage theVariant) w.

(** The message [handleError] builds (the same in both components). *)
Definition errorMessage (error : JsError.t) : string :=
  let errorMessage := "Something went wrong in recordFlags! " in
  match JsError.body error with
  | None => errorMessage
  | Some b =>
      match JsError.output_errors b with
      | Some (e :: _) => errorMessage +:+ Js.to_string (JsError.entry_message e)
      | _ =>
          if Js.truthy_string (JsError.message b)
          then errorMessage +:+ Js.to_string (JsError.message b)
          else errorMessage
      end
  end.

Definition handleError (error : JsError.t) (w : World) : World :=
  showToast "Error" (errorMessage error) "error" w.

(** [getData()]: the call of [RecordFlags.getFetchers]. *)
Definition getData (w : World) : World :=
  emit (ApexGetFetchers (recordId (parent w)) (objectApiName (parent w))) w.

(** The [then] callback of [getData]. *)
Definition getData_then (result : Fetchers.t) (w : World) : World :=
  let w := emit (ConsoleLog result) w in
  let p := parent w in
  set_parent
    (mk (recordId p) (objectApiName p) true (haveErrors p)
        (Fetchers.fetchers result) (existingFlag p)
        (Fetchers.sharedData result) (refreshHandlerID p)) w.

(** The [catch] callback of [getData]. *)
Definition getData_catch (error : JsError.t) (w : World) : World :=
  handleError error w.

(** [connectedCallback()]; [id] is what [registerRefreshHandler]
    returns. *)
Definition connectedCallback (id : nat) (w : World) : World :=
  let w := getData w in
  let p := parent w in
  if negb (Js.truthy_number (refreshHandlerID p)) then
    set_parent
      (mk (recordId p) (objectApiName p) (haveFlags p) (haveErrors p)
          (listOfActiveMdt p) (existingFlag p) (record p) (Some id))
      (emit (RegisterRefreshHandler id) w)
  else w.

Definition disconnectedCallback (w : World) : World :=
  if Js.truthy_number (refreshHandlerID (parent w)) then
    match refreshHandlerID (parent w) with
    | Some id => emit (UnregisterRefreshHandler id) w
    | None => w
    end
  else w.

(** [handleRefresh()]: the promise it returns resolves at once. *)
Definition handleRefresh (w : World) : World := getData w.

(** [JSON.stringify(this.existingFlag)]. *)
Definition stringify_existingFlag (w : World) : string :=
  Json.array (map (λ l, Flag.stringify (heap w !!! l)) (existingFlag (parent w))).

Definition set_existingFlag (l : list loc) (p : t) : t :=
  mk (recordId p) (objectApiName p) (haveFlags p) (haveErrors p)
     (listOfActiveMdt p) l (record p) (refreshHandlerID p).

Definition set_haveErrors (b : bool) (p : t) : t :=
  mk (recordId p) (objectApiName p) (haveFlags p) b
     (listOfActiveMdt p) (existingFlag p) (record p) (refreshHandlerID p).

(** The body of the [forEach] in [handleChildRecordFlags]. *)
Definition merge_childFlag (w : World) (childFlag : loc) : World :=
  if Js.includes (stringify_existingFlag w) component_error then
    match existingFlag (parent w) with
    | e0 :: _ =>
        let existing := heap w !!! e0 in
        let child := heap w !!! childFlag in
        if negb (Js.strict_eq (Flag.body existing) (Flag.body child)) then
          (* accommodate all child errors in 1 flag *)
          set_heap
            (<[e0 := Flag.set_body
                       (Some (Js.to_string (Flag.body existing) +:+ Js.LF
                              +:+ Js.to_string (Flag.body child)))
                       existing]> (heap w)) w
        else w
    | [] => w (* not reached: the text of an empty array is [[]] *)
    end
  else
    (* first error flag *)
    set_parent (set_existingFlag (existingFlag (parent w) ++ [childFlag]) (parent w)) w.

(** [handleChildRecordFlags(event)], with [detail = event.detail]. *)
Definition handleChildRecordFlags (detail : list loc) (w : World) : World :=
  if 0 <? length detail then
    let w := fold_left merge_childFlag detail w in
    set_parent (set_haveErrors true (parent w)) w
  else w.
End Parent.

(** ** The child component [recordFlagFetcher] *)

(** What a callback does: it returns, or it throws. *)
Inductive Completion (A : Type) :=
| Return (a : A)
| Throw (error : JsError.t).
Arguments Return {A} a.
Arguments Throw {A} error.

Module Child.
Import ChildState.

(** The table [varientCSS] of the module. *)
Definition varientCSS (v : FlagVariant) : string :=
  match v with
  | NORMAL => "slds-badge slds-badge_inverse"
  | SUCCESS => "slds-badge slds-theme_success"
  | WARNING => "slds-badge slds-theme_warning"
  | ERROR => "slds-badge slds-theme_error"
  end.

(** Modelled from the spec: the parent's template, which is not among
    the sources, binds [handleChildRecordFlags] to the [errorreceive]
    event of every child (the child-to-parent propagation channel of
    the spec); [dispatchEvent] runs the listener before it returns. *)
Definition dispatch_errorreceive (detail : Datatypes.list loc) (w : World) : World :=
  Parent.handleChildRecordFlags detail (emit (ErrorReceive detail) w).

(** [flag.buttons.forEach((button, index2) => button.key = "button_" + index2)].
    The spread copies the reference of the button array, so the
    assignment is seen through [value] as well. *)
Definition key_buttons (value : RecordFlag.t) : RecordFlag.t :=
  RecordFlag.set_buttons
    (option_map (imap (λ index2, Button.set_key ("button_" +:+ Js.index_to_string index2)))
                (RecordFlag.buttons value))
    value.

(** The object [flag] of [handleRecordFlags]. *)
Definition make_flag (index : nat) (value : RecordFlag.t) : Flag.t :=
  Flag.mk value
    ("key_" +:+ Js.index_to_string index)
    false
    (varientCSS (RecordFlag.variant value))
    (match RecordFlag.buttons value with Some _ => true | None => false end)
    false.

(** [JSON.stringify(value).includes("Component Error")], evaluated
    after the buttons got their keys. *)
Definition is_component_error (value : RecordFlag.t) : bool :=
  Js.includes (RecordFlag.stringify (key_buttons value)) component_error.

(** The body of the [forEach] in [handleRecordFlags]. *)
Definition handle_value (st : t * World) (iv : nat * RecordFlag.t) : t * World :=
  let '(c, w) := st in
  let '(index, value) := iv in
  let flag := make_flag index (key_buttons value) in
  if is_component_error value then
    (* send it to parent *)
    let l := length (heap w) in
    let w := set_heap (heap w ++ [flag]) w in
    let c := set_list (list c ++ [l]) c in
    (c, dispatch_errorreceive (list c) w)
  else
    (set_listOfRecordFlags (listOfRecordFlags c ++ [flag]) c, w).

(** [handleRecordFlags(data)]; [None] is a [null] response, on which
    reading [flagData.length] throws. *)
Definition handleRecordFlags (data : option (Datatypes.list RecordFlag.t))
    (c : t) (w : World) : Completion (t * World) :=
  match data with
  | None => Throw JsError.type_error
  | Some flagData =>
      let '(c, w) :=
        if 0 <? length flagData
        then fold_left handle_value (imap pair flagData) (c, w)
        else (c, w) in
      Return (set_loading false c, w)
  end.

Definition handleError (error : JsError.t) (w : World) : World :=
  Parent.showToast "Error" (Parent.errorMessage error) "error" w.

(** [getData()]: the call of [RecordFlags.invokeFetcher]. *)
Definition getData (c : t) (w : World) : t * World :=
  (c, emit (ApexInvokeFetcher (record c) (mdtRecord c)) w).

(** The [catch] callback of [getData]. *)
Definition getData_catch (error : JsError.t) (c : t) (w : World) : t * World :=
  (set_loading false c, handleError error w).

(** The [then] callback of [getData]; what it throws rejects the
    promise that [catch] is chained to. *)
Definition getData_then (result : option (Datatypes.list RecordFlag.t))
    (c : t) (w : World) : t * World :=
  match handleRecordFlags result c w with
  | Return st => st
  | Throw error => getData_catch error c w
  end.

(** [this.record && this.mdtRecord]. *)
Definition has_inputs (c : t) : bool :=
  match record c, mdtRecord c with
  | Some _, Some _ => true
  | _, _ => false
  end.

(** [connectedCallback()]. *)
Definition connectedCallback (c : t) (w : World) : t * World :=
  if has_inputs c then getData c w
  else
    let c :=
      match errorRecordFlag c with
      | Some l =>
          set_listOfRecordFlags
            (listOfRecordFlags c ++ [Flag.clone (heap w !!! l)]) c
      | None => c
      end in
    (set_loading false c, w).

(** [get haveFlags()]. *)
Definition haveFlags (c : t) : bool := 0 <? length (listOfRecordFlags c).

(** [!flag.body && !flag.hasButtons]. *)
Definition nothing_to_show (flag : Flag.t) : bool :=
  negb (Js.truthy_string (Flag.body flag)) && negb (Flag.hasButtons flag).

(** [handleBadgeClick(event)]; [elementKey] is the [data-div-id] of
    the element. *)
Definition handleBadgeClick (elementKey : string) (c : t) : t :=
  set_listOfRecordFlags
    (map (λ flag,
       if String.eqb (Flag.key flag) elementKey
       then Flag.set_isClicked true
              (Flag.set_showDetails (if nothing_to_show flag then false else true) flag)
       else flag) (listOfRecordFlags c)) c.

(** [handleMouseOver(event)]. *)
Definition handleMouseOver (elementKey : string) (c : t) : t :=
  set_listOfRecordFlags
    (map (λ flag,
       if negb (Flag.isClicked flag) && String.eqb (Flag.key flag) elementKey
       then Flag.set_showDetails
              (if nothing_to_show flag then false else negb (Flag.showDetails flag)) flag
       else flag) (listOfRecordFlags c)) c.

(** [handleMouseOut(event)]: the same body as [handleMouseOver]. *)
Definition handleMouseOut (elementKey : string) (c : t) : t :=
  set_listOfRecordFlags
    (map (λ flag,
       if negb (Flag.isClicked flag) && String.eqb (Flag.key flag) elementKey
       then Flag.set_showDetails
              (if nothing_to_show flag then false else negb (Flag.showDetails flag)) flag
       else flag) (listOfRecordFlags c)) c.

(** [handlePopOverCancel(event)]. *)
Definition handlePopOverCancel (elementKey : string) (c : t) : t :=
  set_listOfRecordFlags
    (map (λ flag,
       if String.eqb (Flag.key flag) elementKey
       then Flag.set_isClicked false (Flag.set_showDetails false flag)
       else flag) (listOfRecordFlags c)) c.

(** The flags of a response that go to the rendered list, and the
    number of those that go to the parent; [index] is the index of
    the first value. *)
Fixpoint normal_flags_from (index : nat) (flagData : Datatypes.list RecordFlag.t)
    : Datatypes.list Flag.t :=
  match flagData with
  | [] => []
  | value :: rest =>
      (if is_component_error value then []
       else [make_flag index (key_buttons value)])
      ++ normal_flags_from (S index) rest
  end.

Definition normal_flags (flagData : Datatypes.list RecordFlag.t) : Datatypes.list Flag.t :=
  normal_flags_from 0 flagData.

(** The flags of a response that go to the parent. *)
Fixpoint error_flags_from (index : nat) (flagData : Datatypes.list RecordFlag.t)
    : Datatypes.list Flag.t :=
  match flagData with
  | [] => []
  | value :: rest =>
      (if is_component_error value
       then [make_flag index (key_buttons value)] else [])
      ++ error_flags_from (S index) rest
  end.

Definition error_flags (flagData : Datatypes.list RecordFlag.t) : Datatypes.list Flag.t :=
  error_flags_from 0 flagData.

Definition error_count (flagData : Datatypes.list RecordFlag.t) : nat :=
  length (List.filter is_component_error flagData).

(** The flags a response adds to the rendered list ([null] adds
    none). *)
Definition rendered_of (result : option (Datatypes.list RecordFlag.t))
    : Datatypes.list Flag.t :=
  match result with
  | Some flagData => normal_flags flagData
  | None => []
  end.

(** A response handled as a success, not as a failure: nothing is
    added to the rendered list, no error event is dispatched, and the
    loading indicator is off. *)
Definition handled_as_success (before after : t * World) : Prop :=
  listOfRecordFlags after.1 = listOfRecordFlags before.1 ∧
  List.filter is_error_event (log after.2) =
    List.filter is_error_event (log before.2) ∧
  loading after.1 = false.

(** Everything that can happen to a child component. *)
Inductive Op :=
| Connected
| Resolved (result : option (Datatypes.list RecordFlag.t))
| Rejected (error : JsError.t)
| BadgeClick (elementKey : string)
| MouseOver (elementKey : string)
| MouseOut (elementKey : string)
| PopOverCancel (elementKey : string).

Definition step (op : Op) (c : t) (w : World) : t * World :=
  match op with
  | Connected => connectedCallback c w
  | Resolved result => getData_then result c w
  | Rejected error => getData_catch error c w
  | BadgeClick k => (handleBadgeClick k c, w)
  | MouseOver k => (handleMouseOver k c, w)
  | MouseOut k => (handleMouseOut k c, w)
  | PopOverCancel k => (handlePopOverCancel k c, w)
  end.

(** The transitions that come from the badges. *)
Definition is_ui (op : Op) : bool :=
  match op with
  | BadgeClick _ | MouseOver _ | MouseOut _ | PopOverCancel _ => true
  | _ => false
  end.

(** A flag with neither body nor buttons has no details to show. *)
Definition popover_ok (flag : Flag.t) : bool :=
  negb (nothing_to_show flag && Flag.showDetails flag).

(** The transitions on which the unit reports. *)
Definition completes (op : Op) (c : t) : bool :=
  match op with
  | Connected => negb (has_inputs c)
  | Resolved _ | Rejected _ => true
  | _ => false
  end.
End Child.

(** ** The page: the parent and the children of its template *)

Record System := mkSystem {
  world : World;
  children : list ChildState.t
}.

Module Page.

(** Modelled from the spec: the parent's template is not among the
    sources.  Following the spec's orchestrator (one isolated
    invocation per computation unit of the catalog, every one given
    the shared payload), a resolved catalog call makes the template
    create one [recordFlagFetcher] per entry of [listOfActiveMdt], in
    that order, with [record] bound to the parent's [record] and
    [mdtRecord] to the entry; each child's [connectedCallback] runs
    when it is inserted. *)
Definition insert_child (s : System) (mdt : Mdt.t) : System :=
  let '(c, w) :=
    Child.connectedCallback
      (ChildState.init None (Some mdt) (ParentState.record (parent (world s))))
      (world s) in
  mkSystem w (children s ++ [c]).

Definition render (w : World) : System :=
  fold_left insert_child (ParentState.listOfActiveMdt (parent w)) (mkSystem w []).

(** Modelled from the spec: the flags the page shows are those of the
    children, child after child in template order. *)
Definition flags (s : System) : list Flag.t :=
  concat (map ChildState.listOfRecordFlags (children s)).

(** The page before the parent is connected. *)
Definition init (recordId objectApiName : option string) : System :=
  mkSystem (mkWorld [] (ParentState.init recordId objectApiName) []) [].

(** What the environment does to the page. *)
Inductive Step :=
| Start (id : nat)
| CatalogResolved (result : Fetchers.t)
| CatalogRejected (error : JsError.t)
| Refresh
| UnitResolved (unit : nat) (result : option (list RecordFlag.t))
| UnitRejected (unit : nat) (error : JsError.t).

Definition on_child (unit : nat) (f : ChildState.t → World → ChildState.t * World)
    (s : System) : System :=
  match children s !! unit with
  | Some c =>
      let '(c, w) := f c (world s) in
      mkSystem w (<[unit := c]> (children s))
  | None => s
  end.

Definition step (s : System) (e : Step) : System :=
  match e with
  | Start id => mkSystem (Parent.connectedCallback id (world s)) (children s)
  | CatalogResolved result => render (Parent.getData_then result (world s))
  | CatalogRejected error => mkSystem (Parent.getData_catch error (world s)) (children s)
  | Refresh => mkSystem (Parent.handleRefresh (world s)) (children s)
  | UnitResolved unit result => on_child unit (Child.getData_then result) s
  | UnitRejected unit error => on_child unit (Child.getData_catch error) s
  end.

Definition run (steps : list Step) (s : System) : System :=
  fold_left step steps s.

(** How the call of a unit settles, and the transition of the page
    for it. *)
Inductive Outcome :=
| Resolves (result : option (list RecordFlag.t))
| Rejects (error : JsError.t).

Definition settles (unit : nat) (o : Outcome) : Step :=
  match o with
  | Resolves result => UnitResolved unit result
  | Rejects error => UnitRejected unit error
  end.

(** The flags an outcome adds to the rendered list of its child. *)
Definition rendered_by (o : Outcome) : list Flag.t :=
  match o with
  | Resolves result => Child.rendered_of result
  | Rejects _ => []
  end.

(** The Apex calls of a log. *)
Definition is_catalog_call (e : Effect) : bool :=
  match e with ApexGetFetchers _ _ => true | _ => false end.

Definition is_unit_call (e : Effect) : bool :=
  match e with ApexInvokeFetcher _ _ => true | _ => false end.

Definition apex_calls (events : list Effect) : list Effect :=
  List.filter (λ e, is_catalog_call e || is_unit_call e) events.

Definition is_toast (e : Effect) : bool :=
  match e with ShowToast _ _ _ => true | _ => false end.

Definition is_errorreceive (e : Effect) : bool :=
  match e with ErrorReceive _ => true | _ => false end.

(** The state of the parent that an outcome of a unit can change:
    the store, the error flags, and whether there are errors. *)
Definition failures (w : World) : list Flag.t * list loc * bool :=
  (heap w, ParentState.existingFlag (parent w), ParentState.haveErrors (parent w)).

(** The body of the coalesced error flag of the parent. *)
Definition error_body (w : World) : option string :=
  match ParentState.existingFlag (parent w) with
  | e0 :: _ => Flag.body (heap w !!! e0)
  | [] => None
  end.

(** What the page shows: the flags, the body of the error flag, and
    whether there were failures. *)
Definition aggregate (s : System) : list Flag.t * option string * bool :=
  (flags s, error_body (world s), ParentState.haveErrors (parent (world s))).
End Page.

(** ** The catalog of the units *)

Module Catalog.

(** Modelled from the spec: the order of the catalog (section 4.1,
    ascending by [order], ties broken by [unitId]).  The Apex method
    [RecordFlags.getFetchers], which builds the catalog, is not among
    the sources.  [unitId] gives the identifier of a descriptor, which
    the metadata record of the README does not list. *)
Definition unit_leb (unitId : Mdt.t → string) (a b : Mdt.t) : bool :=
  (Mdt.Order__c a <? Mdt.Order__c b)%Z
  || ((Mdt.Order__c a =? Mdt.Order__c b)%Z && String.leb (unitId a) (unitId b)).

(** Modelled from the spec: the sort of the catalog filter (section
    4.1), as an insertion sort by [unit_leb]; the Apex code that sorts
    is not among the sources. *)
Fixpoint insert_unit (unitId : Mdt.t → string) (m : Mdt.t) (l : list Mdt.t)
    : list Mdt.t :=
  match l with
  | [] => [m]
  | x :: l' =>
      if unit_leb unitId m x then m :: x :: l' else x :: insert_unit unitId m l'
  end.

(** Modelled from the spec: see [insert_unit]. *)
Fixpoint sort_units (unitId : Mdt.t → string) (l : list Mdt.t) : list Mdt.t :=
  match l with
  | [] => []
  | x :: l' => insert_unit unitId x (sort_units unitId l')
  end.

(** Modelled from the spec: the descriptors the catalog filter keeps
    (section 4.1): those of the object type that are active and whose
    required permission, if any, the user holds ([held]).  The Apex
    code that filters is not among the sources. *)
Definition eligible (held : string → bool) (objectType : string) (m : Mdt.t) : bool :=
  String.eqb (Mdt.Object__c m) objectType
  && Mdt.Is_Active__c m
  && match Mdt.Custom_Permission__c m with
     | Some permission => held permission
     | None => true
     end.

(** Modelled from the spec: [resolveUnits] of the catalog filter
    (section 4.1), which the absent Apex method
    [RecordFlags.getFetchers] implements: the eligible flag
    computations in catalog order, and separately the shared data
    provider if there is one. *)
Definition resolveUnits (unitId : Mdt.t → string) (held : string → bool)
    (objectType : string) (descriptors : list Mdt.t) : list Mdt.t * option Mdt.t :=
  let kept := List.filter (eligible held objectType) descriptors in
  (sort_units unitId (List.filter (λ m, negb (Mdt.Is_Data_Fetcher__c m)) kept),
   head (List.filter Mdt.Is_Data_Fetcher__c kept)).

(** Modelled from the spec: what the absent [RecordFlags.getFetchers]
    resolves with: the units of [resolveUnits] and the shared payload
    (sections 4.1 and 4.2). *)
Definition getFetchers (unitId : Mdt.t → string) (held : string → bool)
    (objectType : string) (descriptors : list Mdt.t) (payload : option SObject.t)
    : Fetchers.t :=
  Fetchers.mk (resolveUnits unitId held objectType descriptors).1 payload.

End Catalog.

(** ** The life cycle of the parent *)

Module Lifecycle.

(** Everything that can happen to the parent component; [id] is what
    [registerRefreshHandler] would return. *)
Inductive Op :=
| Connected (id : nat)
| Disconnected
| Refreshed
| Resolved (result : Fetchers.t)
| Rejected (error : JsError.t)
| ChildFailed (detail : list loc).

Definition step (w : World) (op : Op) : World :=
  match op with
  | Connected id => Parent.connectedCallback id w
  | Disconnected => Parent.disconnectedCallback w
  | Refreshed => Parent.handleRefresh w
  | Resolved result => Parent.getData_then result w
  | Rejected error => Parent.getData_catch error w
  | ChildFailed detail => Parent.handleChildRecordFlags detail w
  end.

Definition run (ops : list Op) (w : World) : World := fold_left step ops w.

(** [refreshHandlerID] after [ops], when it is [r] before and falsy:
    every [connectedCallback] stores the identifier it is given, until
    one is truthy. *)
Fixpoint handler_id (r : option nat) (ops : list Op) : option nat :=
  match ops with
  | [] => r
  | Connected 0 :: rest => handler_id (Some 0) rest
  | Connected (S n) :: _ => Some (S n)
  | _ :: rest => handler_id r rest
  end.

Fixpoint disconnections (ops : list Op) : nat :=
  match ops with
  | [] => 0
  | Disconnected :: rest => S (disconnections rest)
  | _ :: rest => disconnections rest
  end.

(** The registrations of [ops], when [refreshHandlerID] is falsy
    before: every [connectedCallback] registers, until one is given a
    truthy identifier; after that one, every [disconnectedCallback]
    unregisters it. *)
Fixpoint registrations (ops : list Op) : list Effect :=
  match ops with
  | [] => []
  | Connected 0 :: rest => RegisterRefreshHandler 0 :: registrations rest
  | Connected (S n) :: rest =>
      RegisterRefreshHandler (S n) ::
      replicate (disconnections rest) (UnregisterRefreshHandler (S n))
  | _ :: rest => registrations rest
  end.

(** The number of [connectedCallback]s and [handleRefresh]es. *)
Fixpoint catalog_requests (ops : list Op) : nat :=
  match ops with
  | [] => 0
  | Connected _ :: rest | Refreshed :: rest => S (catalog_requests rest)
  | _ :: rest => catalog_requests rest
  end.

Definition is_registration (e : Effect) : bool :=
  match e with
  | RegisterRefreshHandler _ | UnregisterRefreshHandler _ => true
  | _ => false
  end.

End Lifecycle.

(** ** Scenarios *)

Module Scenario.
Definition mdt (name : string) (order : Z) : Mdt.t :=
  Mdt.mk (Some name) None None true false "Case" order.

Definition shared : SObject.t := SObject.mk "500000000000001" [].

Definition failure (reason : string) : RecordFlag.t :=
  RecordFlag.mk ERROR "Component Error" (Some reason) None.

Definition catalog3 : Fetchers.t :=
  Fetchers.mk [mdt "A" 1; mdt "B" 2; mdt "C" 3] (Some shared).

(** Three units fail, with the reasons [a], [b] and [a] again. *)
Definition three_failures (a b c : string) : list Page.Step :=
  [Page.Start 1; Page.CatalogResolved catalog3;
   Page.UnitResolved 0 (Some [failure a]);
   Page.UnitResolved 1 (Some [failure b]);
   Page.UnitResolved 2 (Some [failure c])].

Definition page : System := Page.init (Some "500000000000001") (Some "Case").

(** One child with a shared record and a configuration, before its
    call settles. *)
Definition pending_child : ChildState.t :=
  ChildState.init None (Some (mdt "A" 1)) (Some shared).

(** The first run has one failing unit; after a refresh every unit of
    the second run resolves with no flag. *)
Definition refresh_after_failure : list Page.Step :=
  [Page.Start 1; Page.CatalogResolved catalog3;
   Page.UnitResolved 0 (Some [failure "limit"]);
   Page.Refresh; Page.CatalogResolved catalog3;
   Page.UnitResolved 0 (Some []);
   Page.UnitResolved 1 (Some []);
   Page.UnitResolved 2 (Some [])].

(** The second run of [refresh_after_failure], alone. *)
Definition newest_run_alone : list Page.Step :=
  [Page.Start 1; Page.CatalogResolved catalog3;
   Page.UnitResolved 0 (Some []);
   Page.UnitResolved 1 (Some []);
   Page.UnitResolved 2 (Some [])].

(** The metadata of the three units, as the store holds them, in no
    particular order. *)
Definition descriptors : list Mdt.t := [mdt "C" 3; mdt "A" 1; mdt "B" 2].

(** The identifier of a unit: the name of its class. *)
Definition class_name (m : Mdt.t) : string :=
  Js.to_string (Mdt.Apex_Class_Name__c m).

(** A parent that holds the failure of a first unit, and the store with
    the failure of a second unit that has the same reason. *)
Definition error_world : World :=
  mkWorld
    [Child.make_flag 0 (failure "limit"); Child.make_flag 0 (failure "limit")]
    (ParentState.mk (Some "500000000000001") (Some "Case") true true
       [mdt "A" 1; mdt "B" 2] [0] (Some shared) (Some 1))
    [].
End Scenario.

(** ** Invariants of a run *)

(** A location that holds a flag whose text mentions the error. *)
Definition is_failure (w : World) (l : loc) : Prop :=
  l < length (heap w) ∧
  Js.includes (Flag.stringify (heap w !!! l)) component_error = true.

(** [f'] is [f] with text appended to its body, and nothing else
    changed. *)
Definition body_extended (f f' : Flag.t) : Prop :=
  f' = f ∨ ∃ s, f' = Flag.set_body (Some (Js.to_string (Flag.body f) +:+ s)) f.

(** The store grows: objects are added, the body of an object gets
    longer. *)
Definition heap_grows (w w' : World) : Prop :=
  length (heap w) ≤ length (heap w') ∧
  ∀ l, l < length (heap w) → body_extended (heap w !!! l) (heap w' !!! l).

(** How the shared part of the page may change: objects are added to
    the store, the body of an object grows, [existingFlag] grows at its
    end. *)
Definition evolves (w w' : World) : Prop :=
  length (heap w) ≤ length (heap w') ∧
  (∀ l, l < length (heap w) → body_extended (heap w !!! l) (heap w' !!! l)) ∧
  ParentState.existingFlag (parent w) `prefix_of` ParentState.existingFlag (parent w').

(** The parent holds at most one error flag, and it is a failure. *)
Definition coalesced (w : World) : Prop :=
  length (ParentState.existingFlag (parent w)) ≤ 1 ∧
  ∀ l, l ∈ ParentState.existingFlag (parent w) → is_failure w l.

(** The first failure a child has dispatched, according to the log. *)
Fixpoint first_failure (events : list Effect) : list loc :=
  match events with
  | [] => []
  | ErrorReceive (childFlag :: _) :: _ => [childFlag]
  | _ :: rest => first_failure rest
  end.

(** The invariant of the page: the parent holds at most one error
    flag, namely the first failure that was dispatched, and the error
    lists of the children hold failures only. *)
Definition page_invariant (s : System) : Prop :=
  coalesced (world s) ∧
  (∀ c l, c ∈ children s → l ∈ ChildState.list c → is_failure (world s) l) ∧
  ParentState.existingFlag (parent (world s)) = first_failure (log (world s)).

(** A transition that touches neither the store nor [existingFlag] and
    dispatches no [errorreceive]. *)
Definition quiet (w w' : World) : Prop :=
  heap w' = heap w ∧
  ParentState.existingFlag (parent w') = ParentState.existingFlag (parent w) ∧
  first_failure (log w') = first_failure (log w).

(** [haveErrors] tells whether a child has dispatched a failure. *)
Definition errors_recorded (w : World) : Prop :=
  ParentState.haveErrors (parent w) =
  match first_failure (log w) with [] => false | _ => true end.

(** * Properties *)

(** ** Strings *)

Section strings.
Implicit Types (a b n s : string) (c : ascii).

Lemma append_assoc a b s : (a +:+ b) +:+ s = a +:+ (b +:+ s).
Proof. induction a as [|x a IH]; simpl; [done | by rewrite IH]. Qed.

Lemma append_nil_r a : a +:+ "" = a.
Proof. induction a as [|x a IH]; simpl; [done | by rewrite IH]. Qed.

Lemma occurs_app c a b : Js.occurs c (a +:+ b) = Js.occurs c a || Js.occurs c b.
Proof.
  induction a as [|x a IH]; simpl; [done|].
  by rewrite IH, orb_assoc.
Qed.

Lemma startsWith_refl_app n s : Js.startsWith (n +:+ s) n = true.
Proof.
  induction n as [|x n IH]; simpl; [done|].
  by rewrite Ascii.eqb_refl, IH.
Qed.

Lemma startsWith_app_l a b n :
  Js.startsWith a n = true → Js.startsWith (a +:+ b) n = true.
Proof.
  revert a. induction n as [|x n IH]; intros [|y a]; simpl; try done.
  intros [-> ?]%andb_true_iff. by rewrite IH.
Qed.

(** A needle cannot start before a code unit it does not contain and
    end after it. *)
Lemma startsWith_sep c a b n :
  Js.occurs c n = false →
  Js.startsWith (a +:+ String c b) n = Js.startsWith a n.
Proof.
  revert a. induction n as [|x n IH]; intros a Hc; [done|].
  simpl in Hc. apply orb_false_iff in Hc as [Hx Hn].
  destruct a as [|y a]; simpl.
  - rewrite Ascii.eqb_sym in Hx. by rewrite Hx.
  - by rewrite IH.
Qed.

Lemma includes_nil n : n ≠ "" → Js.includes "" n = false.
Proof. by destruct n. Qed.

Lemma includes_sep c a b n :
  n ≠ "" → Js.occurs c n = false →
  Js.includes (a +:+ String c b) n = Js.includes a n || Js.includes b n.
Proof.
  intros Hn Hc. induction a as [|y a IH].
  - change ("" +:+ String c b) with (String c b).
    rewrite includes_nil by done. simpl.
    destruct n as [|x n]; [done|]. simpl in *.
    apply orb_false_iff in Hc as [Hx _].
    rewrite Ascii.eqb_sym in Hx. by rewrite Hx.
  - change (String y a +:+ String c b) with (String y (a +:+ String c b)).
    cbn [Js.includes]. rewrite IH.
    change (String y (a +:+ String c b)) with (String y a +:+ String c b).
    rewrite startsWith_sep by done. by rewrite orb_assoc.
Qed.

Lemma includes_app_l a b n :
  Js.includes a n = true → Js.includes (a +:+ b) n = true.
Proof.
  induction a as [|y a IH].
  - destruct n; [by destruct b | done].
  - cbn [Js.includes]. intros [H|H]%orb_true_iff.
    + apply (startsWith_app_l _ b) in H. simpl in *. by rewrite H.
    + simpl. rewrite (IH H). by rewrite orb_true_r.
Qed.

Lemma includes_app_r a b n :
  Js.includes b n = true → Js.includes (a +:+ b) n = true.
Proof.
  intros H. induction a as [|y a IH]; [done|].
  simpl. rewrite IH. by rewrite orb_true_r.
Qed.

Lemma includes_unfold s n :
  Js.includes s n =
  Js.startsWith s n ||
  match s with EmptyString => false | String _ s' => Js.includes s' n end.
Proof. by destruct s. Qed.

Lemma includes_refl_app n s : Js.includes (n +:+ s) n = true.
Proof. by rewrite includes_unfold, startsWith_refl_app. Qed.

Lemma startsWith_split s n :
  Js.startsWith s n = true → ∃ q, s = n +:+ q.
Proof.
  revert s. induction n as [|x n IH]; intros s H; [by exists s|].
  destruct s as [|y s]; [done|]. simpl in H.
  apply andb_true_iff in H as [->%Ascii.eqb_eq H].
  destruct (IH _ H) as [q ->]. by exists q.
Qed.

(** [includes] finds exactly the occurrences of the needle. *)
Lemma includes_split s n :
  Js.includes s n = true ↔ ∃ p q, s = p +:+ n +:+ q.
Proof.
  split.
  - induction s as [|y s IH].
    + intros H. simpl in H. rewrite orb_false_r in H.
      destruct (startsWith_split _ _ H) as [q ->]. by exists "", q.
    + cbn [Js.includes]. intros [H|H]%orb_true_iff.
      * destruct (startsWith_split _ _ H) as [q ->]. by exists "", q.
      * destruct (IH H) as (p & q & ->). by exists (String y p), q.
  - intros (p & q & ->). apply includes_app_r, includes_refl_app.
Qed.

(** The first code unit of a needle that is found occurs in the text. *)
Lemma includes_occurs s c n :
  Js.includes s (String c n) = true → Js.occurs c s = true.
Proof.
  intros (p & q & ->)%includes_split.
  rewrite occurs_app. simpl. by rewrite Ascii.eqb_refl, orb_true_r.
Qed.
End strings.

(** ** Where the text of a JSON value can mention [component_error] *)

Local Abbreviation CE s := (Js.includes s component_error).

Section json_text.
Implicit Types (a b s k v : string) (c : ascii).

Lemma CE_nil : CE "" = false.
Proof. done. Qed.

Lemma CE_sep c a b :
  Js.occurs c component_error = false →
  CE (a +:+ String c b) = CE a || CE b.
Proof. by apply includes_sep. Qed.

Lemma CE_cons c b :
  Js.occurs c component_error = false → CE (String c b) = CE b.
Proof.
  intros H. change (String c b) with ("" +:+ String c b).
  by rewrite CE_sep.
Qed.

Lemma CE_join l : CE (Js.join "," l) = existsb (λ s, CE s) l.
Proof.
  induction l as [|x [|y l] IH]; [done| |].
  - cbn [Js.join existsb]. by rewrite orb_false_r.
  - change (Js.join "," (x :: y :: l))
      with (x +:+ String "," (Js.join "," (y :: l))).
    rewrite CE_sep by done. by rewrite IH.
Qed.

Lemma CE_object props : CE (Json.object props) = existsb (λ s, CE s) props.
Proof.
  unfold Json.object. rewrite CE_cons by done.
  rewrite CE_sep by done. by rewrite CE_join, orb_false_r.
Qed.

Lemma CE_array items : CE (Json.array items) = existsb (λ s, CE s) items.
Proof.
  unfold Json.array. rewrite CE_cons by done.
  rewrite CE_sep by done. by rewrite CE_join, orb_false_r.
Qed.

Lemma CE_quote s : CE (Json.quote s) = CE (Json.escape s).
Proof.
  unfold Json.quote. rewrite CE_cons by done.
  rewrite CE_sep by done. by rewrite orb_false_r.
Qed.

Lemma CE_prop k v : CE (Json.prop k v) = CE (Json.escape k) || CE v.
Proof. unfold Json.prop. rewrite CE_sep by done. by rewrite CE_quote. Qed.

Lemma CE_bool (b : bool) : CE (Json.bool b) = false.
Proof. by destruct b. Qed.

Lemma escape_app a b : Json.escape (a +:+ b) = Json.escape a +:+ Json.escape b.
Proof.
  induction a as [|x a IH]; simpl; [done|].
  by rewrite IH, append_assoc.
Qed.

(** Quoting changes no code unit of [component_error]. *)
Lemma CE_escape s : CE s = true → CE (Json.escape s) = true.
Proof.
  intros (p & q & ->)%includes_split.
  rewrite !escape_app. apply includes_app_r, includes_refl_app.
Qed.

Lemma CE_escape_app_l a b :
  CE (Json.escape a) = true → CE (Json.escape (a +:+ b)) = true.
Proof. intros H. rewrite escape_app. by apply includes_app_l. Qed.

Lemma occurs_C_escape s :
  Js.occurs "C" (Json.escape s) = Js.occurs "C" s.
Proof.
  induction s as [|x s IH]; [done|].
  simpl. rewrite occurs_app, IH. f_equal.
  by destruct x as [[] [] [] [] [] [] [] []].
Qed.

Lemma CE_without_C s : Js.occurs "C" s = false → CE (Json.escape s) = false.
Proof.
  intros H. destruct (CE (Json.escape s)) eqn:E; [|done].
  apply includes_occurs in E. by rewrite occurs_C_escape, H in E.
Qed.

Lemma occurs_C_index i : Js.occurs "C" (Js.index_to_string i) = false.
Proof.
  unfold Js.index_to_string. generalize (Nat.to_uint i) as u.
  induction u; simpl; done.
Qed.

Lemma CE_opt_prop {A} k (f : A → string) (o : option A) :
  CE (Json.escape k) = false →
  existsb (λ s, CE s) (Json.opt_prop k f o) =
  match o with Some x => CE (f x) | None => false end.
Proof.
  intros Hk. destruct o; cbn [Json.opt_prop existsb]; [|done].
  by rewrite CE_prop, Hk, orb_false_r.
Qed.
End json_text.

Section flag_text.
Lemma existsb_map {A B} (f : A → B) (p : B → bool) (l : list A) :
  existsb p (map f l) = existsb (λ x, p (f x)) l.
Proof. induction l as [|x l IH]; simpl; [done | by rewrite IH]. Qed.

Lemma CE_button b :
  CE (Button.stringify b) =
  CE (Json.escape (Button.name b)) || CE (Json.escape (Button.url b))
  || match Button.key b with Some k => CE (Json.escape k) | None => false end.
Proof.
  unfold Button.stringify. rewrite CE_object, existsb_app.
  rewrite CE_opt_prop by done. cbn [existsb].
  rewrite !CE_prop, !CE_quote, orb_false_r.
  destruct (Button.key b); by rewrite ?CE_quote.
Qed.

Lemma CE_value v :
  CE (RecordFlag.stringify v) =
  CE (Json.escape (RecordFlag.header v))
  || match RecordFlag.body v with Some b => CE (Json.escape b) | None => false end
  || match RecordFlag.buttons v with
     | Some bs => existsb (λ b, CE (Button.stringify b)) bs
     | None => false
     end.
Proof.
  unfold RecordFlag.stringify, RecordFlag.props.
  rewrite CE_object, !existsb_app, !CE_opt_prop by done.
  cbn [existsb]. rewrite !CE_prop, !CE_quote, orb_false_r.
  replace (CE (Json.escape (variant_name (RecordFlag.variant v)))) with false
    by (by destruct (RecordFlag.variant v)).
  destruct (RecordFlag.body v), (RecordFlag.buttons v);
    rewrite ?CE_quote, ?CE_array, ?existsb_map; simpl;
    by rewrite ?orb_false_r, ?orb_assoc.
Qed.

Lemma CE_flag f :
  CE (Flag.stringify f) =
  CE (RecordFlag.stringify (Flag.value f))
  || CE (Json.escape (Flag.key f)) || CE (Json.escape (Flag.varientCSS f)).
Proof.
  unfold Flag.stringify, Flag.props.
  rewrite CE_object, existsb_app. cbn [existsb].
  rewrite !CE_prop, !CE_quote, !CE_bool, !orb_false_r.
  unfold RecordFlag.stringify. rewrite CE_object. simpl.
  by rewrite orb_assoc.
Qed.

Lemma CE_index_key prefix i :
  Js.occurs "C" prefix = false →
  CE (Json.escape (prefix +:+ Js.index_to_string i)) = false.
Proof.
  intros H. apply CE_without_C. by rewrite occurs_app, H, occurs_C_index.
Qed.

(** The properties the child adds to a value never mention the error:
    the flag mentions it exactly when the value does. *)
Lemma CE_make_flag i v :
  CE (Flag.stringify (Child.make_flag i v)) = CE (RecordFlag.stringify v).
Proof.
  rewrite CE_flag. cbn [Child.make_flag Flag.value Flag.key Flag.varientCSS].
  rewrite CE_index_key by done.
  replace (CE (Json.escape (Child.varientCSS (RecordFlag.variant v)))) with false
    by (by destruct (RecordFlag.variant v)).
  by rewrite !orb_false_r.
Qed.

(** Appending to the body of a flag keeps the mention. *)
Lemma CE_set_body f s :
  CE (Flag.stringify f) = true →
  CE (Flag.stringify
        (Flag.set_body (Some (Js.to_string (Flag.body f) +:+ s)) f)) = true.
Proof.
  rewrite !CE_flag, !CE_value. destruct f as [[va h b bs] k sd css hb ic].
  cbn [Flag.set_body Flag.value Flag.key Flag.varientCSS Flag.body
       RecordFlag.set_body RecordFlag.header RecordFlag.body RecordFlag.buttons].
  intros H. repeat (apply orb_true_iff in H as [H|H]);
    rewrite ?H, ?orb_true_r; try done.
  destruct b as [b|]; [|done].
  cbn [Js.to_string]. by rewrite (CE_escape_app_l _ _ H), ?orb_true_r.
Qed.
End flag_text.

(** ** The coalesced error flag of the parent *)

Section coalescing.
Implicit Types (w : World) (l : loc) (f : Flag.t).

Lemma body_extended_refl f : body_extended f f.
Proof. by left. Qed.

Lemma set_body_set_body b1 b2 f :
  Flag.set_body b2 (Flag.set_body b1 f) = Flag.set_body b2 f.
Proof. done. Qed.

Lemma body_extended_trans f1 f2 f3 :
  body_extended f1 f2 → body_extended f2 f3 → body_extended f1 f3.
Proof.
  intros [->|[s ->]]; [done|].
  intros [->|[s' ->]]; [right; by exists s|].
  right. exists (s +:+ s').
  rewrite set_body_set_body. cbn [Flag.body Flag.set_body Flag.value
    RecordFlag.set_body RecordFlag.body Js.to_string].
  by rewrite append_assoc.
Qed.

Lemma body_extended_CE f f' :
  body_extended f f' →
  CE (Flag.stringify f) = true → CE (Flag.stringify f') = true.
Proof. intros [->|[s ->]] H; [done|]. by apply CE_set_body. Qed.

Lemma evolves_refl w : evolves w w.
Proof. split_and!; [done| |done]. intros. apply body_extended_refl. Qed.

Lemma evolves_trans w1 w2 w3 : evolves w1 w2 → evolves w2 w3 → evolves w1 w3.
Proof.
  intros (Hl & Hb & Hp) (Hl' & Hb' & Hp'). split_and!.
  - lia.
  - intros l ?. eapply body_extended_trans; [by apply Hb|]. apply Hb'. lia.
  - by etrans.
Qed.

Lemma evolves_failure w w' l : evolves w w' → is_failure w l → is_failure w' l.
Proof.
  intros (Hl & Hb & _) [? HCE]. split; [lia|].
  eapply body_extended_CE; [by apply Hb | done].
Qed.

(** Only the store and [existingFlag] matter to [evolves]. *)
Lemma evolves_same w w' :
  heap w' = heap w →
  ParentState.existingFlag (parent w') = ParentState.existingFlag (parent w) →
  evolves w w'.
Proof.
  intros Hh He. unfold evolves. rewrite Hh, He.
  split_and!; [done| |done]. intros. apply body_extended_refl.
Qed.

Lemma coalesced_same w w' :
  heap w' = heap w →
  ParentState.existingFlag (parent w') = ParentState.existingFlag (parent w) →
  coalesced w → coalesced w'.
Proof.
  intros Hh He. unfold coalesced, is_failure. by rewrite Hh, He.
Qed.

(** With the invariant, the test of [merge_childFlag] asks whether
    [existingFlag] is empty. *)
Lemma CE_existingFlag w :
  coalesced w →
  CE (Parent.stringify_existingFlag w) =
  match ParentState.existingFlag (parent w) with [] => false | _ => true end.
Proof.
  intros [_ Hf]. unfold Parent.stringify_existingFlag.
  rewrite CE_array, existsb_map.
  destruct (ParentState.existingFlag (parent w)) as [|e0 es]; [done|].
  destruct (Hf e0) as [_ H]; [by left|]. cbn [existsb]. by rewrite H.
Qed.

(** The branch of [merge_childFlag] that reads [existingFlag[0]] is
    taken with a first element only. *)
Lemma existingFlag_nonempty w :
  CE (Parent.stringify_existingFlag w) = true →
  ParentState.existingFlag (parent w) ≠ [].
Proof.
  unfold Parent.stringify_existingFlag. intros H Hnil.
  rewrite Hnil in H. discriminate H.
Qed.

Lemma merge_childFlag_spec w c :
  coalesced w → is_failure w c →
  coalesced (Parent.merge_childFlag w c) ∧
  evolves w (Parent.merge_childFlag w c) ∧
  log (Parent.merge_childFlag w c) = log w ∧
  ParentState.existingFlag (parent (Parent.merge_childFlag w c)) =
    match ParentState.existingFlag (parent w) with
    | [] => [c]
    | es => es
    end.
Proof.
  intros Hw Hc. unfold Parent.merge_childFlag.
  rewrite CE_existingFlag by done.
  destruct Hw as [Hlen Hf].
  destruct (ParentState.existingFlag (parent w)) as [|e0 es] eqn:Hes.
  - (* first error flag *)
    assert (ParentState.existingFlag
              (parent (set_parent (Parent.set_existingFlag ([] ++ [c]) (parent w)) w))
            = [c]) as Hnew by done.
    split_and!; [| |done|done].
    + split; rewrite Hnew; [simpl; lia|].
      by intros l ->%list_elem_of_singleton.
    + split_and!; [done|intros; apply body_extended_refl|].
      rewrite Hes, Hnew. apply prefix_nil.
  - destruct (Hf e0) as [He0 HCE]; [by left|].
    destruct (negb _).
    + cbn [parent set_heap heap log]. rewrite Hes. split_and!; [| |done|done].
      * split; cbn [parent set_heap heap]; [by rewrite Hes|].
        rewrite Hes. intros l Hl. destruct (Hf l Hl) as [? HCEl].
        split; cbn [heap set_heap]; [by rewrite length_insert|].
        destruct (decide (l = e0)) as [->|].
        -- rewrite list_lookup_total_insert_eq by done. by apply CE_set_body.
        -- by rewrite list_lookup_total_insert_ne.
      * split_and!; cbn [parent set_heap heap]; [by rewrite length_insert| |done].
        intros l Hl. destruct (decide (l = e0)) as [->|].
        -- rewrite list_lookup_total_insert_eq by done. right. eauto.
        -- rewrite list_lookup_total_insert_ne by done. apply body_extended_refl.
    + rewrite Hes. split_and!; [|apply evolves_refl|done|done].
      split; by rewrite Hes.
Qed.
Lemma fold_merge_childFlag_spec detail w :
  coalesced w → (∀ l, l ∈ detail → is_failure w l) →
  coalesced (fold_left Parent.merge_childFlag detail w) ∧
  evolves w (fold_left Parent.merge_childFlag detail w) ∧
  log (fold_left Parent.merge_childFlag detail w) = log w ∧
  ParentState.existingFlag (parent (fold_left Parent.merge_childFlag detail w)) =
    match ParentState.existingFlag (parent w), detail with
    | [], c :: _ => [c]
    | es, _ => es
    end.
Proof.
  revert w. induction detail as [|c detail IH]; intros w Hw Hd.
  - split_and!; [done|apply evolves_refl|done|].
    simpl. by destruct (ParentState.existingFlag (parent w)).
  - destruct (merge_childFlag_spec w c) as (Hw1 & Hev1 & Hlog1 & Hex1);
      [done|apply Hd; by left|].
    destruct (IH (Parent.merge_childFlag w c)) as (Hw2 & Hev2 & Hlog2 & Hex2);
      [done|intros l Hl; eapply evolves_failure; [done|apply Hd; by right]|].
    cbn [fold_left]. split_and!; [done|by eapply evolves_trans|congruence|].
    rewrite Hex2, Hex1.
    by destruct (ParentState.existingFlag (parent w)), detail.
Qed.

Lemma handleChildRecordFlags_spec detail w :
  coalesced w → (∀ l, l ∈ detail → is_failure w l) →
  coalesced (Parent.handleChildRecordFlags detail w) ∧
  evolves w (Parent.handleChildRecordFlags detail w) ∧
  log (Parent.handleChildRecordFlags detail w) = log w ∧
  ParentState.existingFlag (parent (Parent.handleChildRecordFlags detail w)) =
    match ParentState.existingFlag (parent w), detail with
    | [], c :: _ => [c]
    | es, _ => es
    end.
Proof.
  intros Hw Hd. unfold Parent.handleChildRecordFlags.
  destruct detail as [|c detail]; cbn [length Nat.ltb Nat.leb].
  - split_and!; [done|apply evolves_refl|done|].
    by destruct (ParentState.existingFlag (parent w)).
  - destruct (fold_merge_childFlag_spec (c :: detail) w Hw Hd)
      as (Hw1 & Hev1 & Hlog1 & Hex1).
    set (w1 := fold_left Parent.merge_childFlag (c :: detail) w) in *.
    split_and!; [| |done|done].
    + by eapply coalesced_same.
    + eapply evolves_trans; [done|]. by apply evolves_same.
Qed.
End coalescing.

(** ** What the handlers leave alone *)

Section frames.
Implicit Types (w : World) (c : ChildState.t).

Lemma merge_childFlag_frame w l :
  log (Parent.merge_childFlag w l) = log w ∧
  length (heap (Parent.merge_childFlag w l)) = length (heap w).
Proof.
  unfold Parent.merge_childFlag.
  destruct (Js.includes _ _); [|done].
  destruct (ParentState.existingFlag (parent w)); [done|].
  destruct (negb _); [|done].
  cbn [set_heap log heap]. by rewrite length_insert.
Qed.

Lemma handleChildRecordFlags_frame detail w :
  log (Parent.handleChildRecordFlags detail w) = log w ∧
  length (heap (Parent.handleChildRecordFlags detail w)) = length (heap w).
Proof.
  unfold Parent.handleChildRecordFlags. destruct (0 <? length detail); [|done].
  cbn [set_parent log heap]. revert w.
  induction detail as [|l detail IH]; intros w; [done|].
  cbn [fold_left]. destruct (IH (Parent.merge_childFlag w l)) as [-> ->].
  apply merge_childFlag_frame.
Qed.

(** The effect of the [forEach] of [handleRecordFlags] on the child
    and on the log. *)
Lemma fold_handle_value flagData k c w :
  let st := fold_left Child.handle_value (imap (λ i v, (k + i, v)) flagData) (c, w) in
  let h := length (heap w) in
  ChildState.listOfRecordFlags st.1 =
    ChildState.listOfRecordFlags c ++ Child.normal_flags_from k flagData ∧
  ChildState.list st.1 = ChildState.list c ++ seq h (Child.error_count flagData) ∧
  log st.2 =
    log w ++ map (λ j, ErrorReceive (ChildState.list c ++ seq h (S j)))
                 (seq 0 (Child.error_count flagData)) ∧
  length (heap st.2) = h + Child.error_count flagData ∧
  ChildState.loading st.1 = ChildState.loading c ∧
  ChildState.errorRecordFlag st.1 = ChildState.errorRecordFlag c ∧
  ChildState.mdtRecord st.1 = ChildState.mdtRecord c ∧
  ChildState.record st.1 = ChildState.record c.
Proof.
  revert k c w. induction flagData as [|v flagData IH]; intros k c w.
  - cbn. rewrite !app_nil_r. by rewrite Nat.add_0_r.
  - rewrite imap_cons. cbn [fold_left].
    rewrite Nat.add_0_r.
    assert (imap ((λ i v0, (k + i, v0)) ∘ S) flagData =
            imap (λ i v0, (S k + i, v0)) flagData) as ->.
    { apply imap_ext. intros i x _. cbn. f_equal. lia. }
    unfold Child.error_count. cbn [Child.handle_value Child.normal_flags_from List.filter].
    destruct (Child.is_component_error v) eqn:Hv.
    + set (c1 := ChildState.set_list _ c).
      set (w1 := Child.dispatch_errorreceive _ _).
      specialize (IH (S k) c1 w1). cbn zeta in IH.
      destruct IH as (-> & -> & -> & -> & -> & -> & -> & ->).
      assert (log w1 = log w ++ [ErrorReceive (ChildState.list c ++ [length (heap w)])]
              ∧ length (heap w1) = S (length (heap w))) as [Hlog Hlen].
      { unfold w1, Child.dispatch_errorreceive.
        destruct (handleChildRecordFlags_frame (ChildState.list c1)
          (emit (ErrorReceive (ChildState.list c1))
             (set_heap (heap w ++ [Child.make_flag k (Child.key_buttons v)]) w)))
          as [-> ->].
        cbn [emit set_heap log heap]. rewrite length_app. cbn. split; [done|lia]. }
      rewrite Hlog, Hlen. cbn [ChildState.set_list ChildState.list c1
        ChildState.listOfRecordFlags ChildState.loading ChildState.errorRecordFlag
        ChildState.mdtRecord ChildState.record length].
      fold (Child.error_count flagData).
      split_and!; try done.
      * by rewrite <-app_assoc.
      * rewrite <-!app_assoc. f_equal. cbn [seq map app]. f_equal.
        rewrite <-seq_shift, map_map. apply map_ext. intros j.
        by rewrite <-app_assoc.
      * lia.
    + specialize (IH (S k)
        (ChildState.set_listOfRecordFlags
           (ChildState.listOfRecordFlags c ++ [Child.make_flag k (Child.key_buttons v)]) c) w).
      cbn zeta in IH.
      destruct IH as (-> & -> & -> & -> & -> & -> & -> & ->).
      cbn [ChildState.set_listOfRecordFlags ChildState.list
        ChildState.listOfRecordFlags ChildState.loading ChildState.errorRecordFlag
        ChildState.mdtRecord ChildState.record].
      fold (Child.error_count flagData).
      split_and!; try done. by rewrite <-app_assoc.
Qed.
End frames.

(** ** Quoting neither hides nor creates a mention of the error *)

Section escape_text.
Implicit Types (a : ascii) (s t r : string).

Lemma escape_char_cases a :
  Json.escape_char a = String a "" ∨
  ∃ t, Json.escape_char a = String "\" t ∧ Js.occurs "C" t = false ∧
       Js.occurs a component_error = false.
Proof.
  destruct a as [[] [] [] [] [] [] [] []];
    solve [by left | right; eexists; split_and!; reflexivity].
Qed.

Lemma escape_char_plain a :
  Js.occurs a component_error = true → Json.escape_char a = String a "".
Proof.
  intros H. destruct (escape_char_cases a) as [|(t & _ & _ & H')]; [done|].
  by rewrite H in H'.
Qed.

Lemma startsWith_escape s n :
  (∀ a, Js.occurs a n = true → Js.occurs a component_error = true) →
  Js.startsWith (Json.escape s) n = Js.startsWith s n.
Proof.
  revert s. induction n as [|x n IH]; intros s Hn; [done|].
  destruct s as [|a s]; [done|].
  assert (Js.occurs x component_error = true) as Hx.
  { apply Hn. simpl. by rewrite Ascii.eqb_refl. }
  assert (∀ a, Js.occurs a n = true → Js.occurs a component_error = true) as Hn'.
  { intros b Hb. apply Hn. simpl. by rewrite Hb, orb_true_r. }
  cbn [Json.escape].
  destruct (escape_char_cases a) as [->|(t & -> & _ & Ha)].
  - simpl. by rewrite IH.
  - simpl. destruct (Ascii.eqb_spec x "\") as [->|_]; [done|].
    destruct (Ascii.eqb_spec x a) as [->|_]; [|done].
    by rewrite Hx in Ha.
Qed.

Lemma CE_skip t r : Js.occurs "C" t = false → CE (t +:+ r) = CE r.
Proof.
  induction t as [|y t IH]; [done|].
  cbn [Js.occurs]. intros [Hy Ht]%orb_false_iff.
  change (String y t +:+ r) with (String y (t +:+ r)).
  rewrite includes_unfold, IH by done.
  unfold component_error at 1. cbn [Js.startsWith]. by rewrite Hy.
Qed.

Lemma CE_escape_eq s : CE (Json.escape s) = CE s.
Proof.
  induction s as [|a s IH]; [done|].
  rewrite (includes_unfold (String a s)), <-IH.
  rewrite <-(startsWith_escape (String a s)) by done.
  cbn [Json.escape].
  destruct (escape_char_cases a) as [->|(t & -> & Ht & Ha)].
  - by rewrite includes_unfold.
  - change (String "\" t +:+ Json.escape s) with (String "\" (t +:+ Json.escape s)).
    rewrite CE_cons by done. rewrite CE_skip by done.
    unfold component_error at 2. cbn [Js.startsWith]. done.
Qed.
End escape_text.

(** ** The classification of a value by the child *)

Section classification.
Lemma CE_keyed_buttons (g : nat → nat) (bs : list Button.t) :
  existsb (λ b, CE (Button.stringify b))
    (imap (λ i, Button.set_key ("button_" +:+ Js.index_to_string (g i))) bs) =
  existsb (λ b, CE (Button.name b) || CE (Button.url b)) bs.
Proof.
  revert g. induction bs as [|b bs IH]; intros g; [done|].
  rewrite imap_cons. cbn [existsb].
  change (imap _ bs) with
    (imap (λ i, Button.set_key ("button_" +:+ Js.index_to_string ((g ∘ S) i))) bs).
  rewrite IH, CE_button.
  cbn [Button.set_key Button.name Button.url Button.key].
  by rewrite CE_index_key, !CE_escape_eq, orb_false_r.
Qed.

(** The test of the child, in terms of the properties of the value
    as received: the error is mentioned in the header, in the body,
    or in the name or the address of a button. *)
Lemma is_component_error_fields v :
  Child.is_component_error v =
  CE (RecordFlag.header v)
  || match RecordFlag.body v with Some b => CE b | None => false end
  || match RecordFlag.buttons v with
     | Some bs => existsb (λ b, CE (Button.name b) || CE (Button.url b)) bs
     | None => false
     end.
Proof.
  unfold Child.is_component_error. rewrite CE_value.
  destruct v as [va h b bs].
  cbn [Child.key_buttons RecordFlag.set_buttons RecordFlag.header
       RecordFlag.body RecordFlag.buttons].
  rewrite CE_escape_eq. f_equal; [f_equal|].
  - destruct b; [apply CE_escape_eq | done].
  - destruct bs as [bs|]; [|done]. cbn [option_map].
    apply (CE_keyed_buttons (λ i, i)).
Qed.

(** The flag built from a failing value is a failure for the parent. *)
Lemma CE_failing_flag i v :
  Child.is_component_error v = true →
  CE (Flag.stringify (Child.make_flag i (Child.key_buttons v))) = true.
Proof. intros H. by rewrite CE_make_flag. Qed.
End classification.

(** ** The invariant of the page *)

Section page_invariant.
Implicit Types (w : World) (c : ChildState.t) (s : System).

Lemma first_failure_app l1 l2 :
  first_failure (l1 ++ l2) =
  match first_failure l1 with [] => first_failure l2 | r => r end.
Proof.
  induction l1 as [|e l1 IH]; [done|].
  destruct e as [| | | | |[|x d]|]; simpl; by rewrite ?IH.
Qed.

(** One dispatch of [errorreceive] by a child whose error list holds
    failures. *)
Lemma dispatch_errorreceive_spec detail w :
  coalesced w → (∀ l, l ∈ detail → is_failure w l) →
  ParentState.existingFlag (parent w) = first_failure (log w) →
  let w' := Child.dispatch_errorreceive detail w in
  coalesced w' ∧ evolves w w' ∧
  ParentState.existingFlag (parent w') = first_failure (log w').
Proof.
  intros Hw Hd Hff. unfold Child.dispatch_errorreceive. cbn zeta.
  set (w0 := emit (ErrorReceive detail) w).
  destruct (handleChildRecordFlags_spec detail w0) as (Hw1 & Hev & Hlog & Hex);
    [by eapply coalesced_same|done|].
  split_and!; [done|by eapply evolves_trans; [apply (evolves_same w w0)|]|].
  rewrite Hex, Hlog. cbn [w0 emit parent log].
  rewrite first_failure_app, Hff.
  destruct (first_failure (log w)); by destruct detail.
Qed.

Lemma alloc_evolves w f : evolves w (set_heap (heap w ++ [f]) w).
Proof.
  split_and!; cbn [set_heap heap parent]; [rewrite length_app; lia| |done].
  intros l Hl. rewrite lookup_total_app_l by done. apply body_extended_refl.
Qed.

Lemma alloc_coalesced w f : coalesced w → coalesced (set_heap (heap w ++ [f]) w).
Proof.
  intros [Hlen Hf]. split; [done|]. intros l Hl.
  eapply evolves_failure; [apply alloc_evolves|by apply Hf].
Qed.

Lemma handle_value_spec c w iv :
  coalesced w → (∀ l, l ∈ ChildState.list c → is_failure w l) →
  ParentState.existingFlag (parent w) = first_failure (log w) →
  let st := Child.handle_value (c, w) iv in
  coalesced st.2 ∧ evolves w st.2 ∧
  (∀ l, l ∈ ChildState.list st.1 → is_failure st.2 l) ∧
  ParentState.existingFlag (parent st.2) = first_failure (log st.2).
Proof.
  intros Hw Hc Hff. destruct iv as [i v]. cbn [Child.handle_value].
  destruct (Child.is_component_error v) eqn:Hv; cbn zeta; cbn [fst snd];
    [|by split_and!; [|apply evolves_refl| |]].
  set (f := Child.make_flag i (Child.key_buttons v)).
  set (w0 := set_heap (heap w ++ [f]) w).
  set (c1 := ChildState.set_list _ c).
  assert (∀ l, l ∈ ChildState.list c1 → is_failure w0 l) as Hc1.
  { intros l [Hl| ->%list_elem_of_singleton]%elem_of_app.
    - eapply evolves_failure; [apply alloc_evolves|by apply Hc].
    - split; cbn [w0 set_heap heap]; [rewrite length_app; simpl; lia|].
      rewrite lookup_total_app_r by done. rewrite Nat.sub_diag.
      by apply CE_failing_flag. }
  destruct (dispatch_errorreceive_spec (ChildState.list c1) w0)
    as (Hw' & Hev & Hff'); [by apply alloc_coalesced|done|done|].
  split_and!; [done| |intros l Hl; eapply evolves_failure; eauto|done].
  eapply evolves_trans; [apply alloc_evolves|done].
Qed.

Lemma fold_handle_value_spec ivs c w :
  coalesced w → (∀ l, l ∈ ChildState.list c → is_failure w l) →
  ParentState.existingFlag (parent w) = first_failure (log w) →
  let st := fold_left Child.handle_value ivs (c, w) in
  coalesced st.2 ∧ evolves w st.2 ∧
  (∀ l, l ∈ ChildState.list st.1 → is_failure st.2 l) ∧
  ParentState.existingFlag (parent st.2) = first_failure (log st.2).
Proof.
  revert c w. induction ivs as [|iv ivs IH]; intros c w Hw Hc Hff.
  - by split_and!; [|apply evolves_refl| |].
  - cbn [fold_left].
    destruct (handle_value_spec c w iv Hw Hc Hff) as (Hw1 & Hev1 & Hc1 & Hff1).
    destruct (Child.handle_value (c, w) iv) as [c1 w1].
    destruct (IH c1 w1 Hw1 Hc1 Hff1) as (Hw2 & Hev2 & Hc2 & Hff2).
    split_and!; [done|by eapply evolves_trans|done|done].
Qed.
Lemma quiet_refl w : quiet w w.
Proof. done. Qed.

Lemma quiet_trans w1 w2 w3 : quiet w1 w2 → quiet w2 w3 → quiet w1 w3.
Proof. intros (? & ? & ?) (? & ? & ?). split_and!; congruence. Qed.

Lemma quiet_emit e w :
  (if e is ErrorReceive _ then False else True) → quiet w (emit e w).
Proof.
  intros He. split_and!; [done|done|]. cbn [emit log].
  rewrite first_failure_app. destruct (first_failure (log w)); [|done].
  by destruct e.
Qed.

Lemma quiet_evolves w w' : quiet w w' → evolves w w'.
Proof. intros (? & ? & _). by apply evolves_same. Qed.

Lemma quiet_invariant w w' :
  quiet w w' → coalesced w →
  ParentState.existingFlag (parent w) = first_failure (log w) →
  coalesced w' ∧ ParentState.existingFlag (parent w') = first_failure (log w').
Proof.
  intros (Hh & He & Hf) Hw Hff. split; [by eapply coalesced_same|congruence].
Qed.

Lemma parent_getData_quiet w : quiet w (Parent.getData w).
Proof. by apply quiet_emit. Qed.

Lemma parent_connectedCallback_quiet id w :
  quiet w (Parent.connectedCallback id w).
Proof.
  unfold Parent.connectedCallback.
  destruct (negb (Js.truthy_number
                    (ParentState.refreshHandlerID (parent (Parent.getData w)))));
    [|apply parent_getData_quiet].
  eapply quiet_trans; [apply parent_getData_quiet|].
  eapply quiet_trans; [by apply (quiet_emit (RegisterRefreshHandler id))|].
  done.
Qed.

Lemma parent_getData_then_quiet result w :
  quiet w (Parent.getData_then result w).
Proof.
  unfold Parent.getData_then.
  eapply quiet_trans; [by apply (quiet_emit (ConsoleLog result))|]. done.
Qed.

Lemma handleError_quiet error w : quiet w (Parent.handleError error w).
Proof. by apply quiet_emit. Qed.

Lemma child_connectedCallback_quiet c w :
  quiet w (Child.connectedCallback c w).2 ∧
  ChildState.list (Child.connectedCallback c w).1 = ChildState.list c.
Proof.
  unfold Child.connectedCallback, Child.getData.
  destruct (Child.has_inputs c); cbn [fst snd].
  - split; [by apply quiet_emit|done].
  - split; [done|]. by destruct (ChildState.errorRecordFlag c).
Qed.

(** What a child does when the call of its unit settles. *)
Lemma child_settle_spec (op : Child.Op) c w :
  coalesced w → (∀ l, l ∈ ChildState.list c → is_failure w l) →
  ParentState.existingFlag (parent w) = first_failure (log w) →
  let st := Child.step op c w in
  coalesced st.2 ∧ evolves w st.2 ∧
  (∀ l, l ∈ ChildState.list st.1 → is_failure st.2 l) ∧
  ParentState.existingFlag (parent st.2) = first_failure (log st.2).
Proof.
  intros Hw Hc Hff.
  assert (∀ c' w', quiet w w' → ChildState.list c' = ChildState.list c →
    coalesced w' ∧ evolves w w' ∧
    (∀ l, l ∈ ChildState.list c' → is_failure w' l) ∧
    ParentState.existingFlag (parent w') = first_failure (log w')) as Hquiet.
  { intros c' w' Hq Hl. destruct (quiet_invariant _ _ Hq Hw Hff).
    split_and!; [done|by apply quiet_evolves| |done].
    rewrite Hl. intros l ?. eapply evolves_failure; [by apply quiet_evolves|auto]. }
  destruct op as [|[flagData|]| | | | |]; cbn [Child.step];
    try (cbn zeta; cbn [fst snd]; by apply Hquiet).
  - cbn zeta. by apply Hquiet; apply child_connectedCallback_quiet.
  - unfold Child.getData_then, Child.handleRecordFlags.
    destruct (0 <? length flagData).
    + pose proof (fold_handle_value_spec (imap pair flagData) c w Hw Hc Hff) as H.
      destruct (fold_left _ _ _) as [c1 w1]. apply H.
    + cbn zeta. cbn [fst snd]. by apply Hquiet.
  - cbn zeta. cbn [Child.getData_then Child.handleRecordFlags Child.getData_catch fst snd].
    apply Hquiet; [apply handleError_quiet|done].
  - cbn zeta. cbn [Child.getData_catch fst snd].
    apply Hquiet; [apply handleError_quiet|done].
Qed.
Lemma insert_child_spec s mdt :
  quiet (world s) (world (Page.insert_child s mdt)) ∧
  ∃ c, children (Page.insert_child s mdt) = children s ++ [c] ∧
       ChildState.list c = [].
Proof.
  unfold Page.insert_child.
  set (c0 := ChildState.init _ _ _).
  destruct (child_connectedCallback_quiet c0 (world s)) as [Hq Hl].
  destruct (Child.connectedCallback c0 (world s)) as [c w]. cbn [world children].
  split; [done|]. by exists c.
Qed.

Lemma render_spec w :
  quiet w (world (Page.render w)) ∧
  ∀ c, c ∈ children (Page.render w) → ChildState.list c = [].
Proof.
  unfold Page.render.
  cut (∀ mdts s, (∀ c, c ∈ children s → ChildState.list c = []) →
         quiet (world s) (world (fold_left Page.insert_child mdts s)) ∧
         ∀ c, c ∈ children (fold_left Page.insert_child mdts s) →
              ChildState.list c = []).
  { intros H. apply (H _ (mkSystem w [])). by intros c ?%elem_of_nil. }
  induction mdts as [|mdt mdts IH]; intros s Hs; [done|].
  cbn [fold_left].
  destruct (insert_child_spec s mdt) as (Hq & c & Hc & Hl).
  destruct (IH (Page.insert_child s mdt)) as [Hq' Hs'].
  { rewrite Hc. intros c' [?| ->%list_elem_of_singleton]%elem_of_app; auto. }
  split; [by eapply quiet_trans|done].
Qed.

Lemma elem_of_insert_inv {A} (l : list A) i x y :
  y ∈ <[i:=x]> l → y = x ∨ y ∈ l.
Proof.
  intros [j Hj]%list_elem_of_lookup.
  apply list_lookup_insert_Some in Hj as [(-> & -> & _)|[_ Hj]]; [by left|].
  right. by eapply list_elem_of_lookup_2.
Qed.

Lemma init_invariant recordId objectApiName :
  page_invariant (Page.init recordId objectApiName).
Proof.
  split_and!; [split; [simpl; lia|by intros l ?%elem_of_nil]| |done].
  by intros c l ?%elem_of_nil.
Qed.

Lemma step_invariant s e :
  page_invariant s →
  page_invariant (Page.step s e) ∧ evolves (world s) (world (Page.step s e)).
Proof.
  intros (Hw & Hc & Hff).
  assert (∀ w', quiet (world s) w' →
    page_invariant (mkSystem w' (children s)) ∧ evolves (world s) w') as Hquiet.
  { intros w' Hq. destruct (quiet_invariant _ _ Hq Hw Hff).
    split; [|by apply quiet_evolves]. split_and!; [done| |done].
    intros c l ??. eapply evolves_failure; [by apply quiet_evolves|eauto]. }
  assert (∀ unit op,
    page_invariant (Page.on_child unit (Child.step op) s) ∧
    evolves (world s) (world (Page.on_child unit (Child.step op) s))) as Hchild.
  { intros unit op. unfold Page.on_child.
    destruct (children s !! unit) as [c|] eqn:Hu;
      [|by split; [|apply evolves_refl]].
    destruct (child_settle_spec op c (world s)) as (Hw' & Hev & Hc' & Hff');
      [done|intros l ?; eapply Hc; [by eapply list_elem_of_lookup_2|done]|done|].
    destruct (Child.step op c (world s)) as [c' w']. cbn [fst snd] in *.
    split; [|done]. split_and!; [done| |done]. cbn [world children].
    intros c2 l [->|Hc2]%elem_of_insert_inv Hl; [by apply Hc'|].
    eapply evolves_failure; [done|by eapply Hc]. }
  destruct e as [id|result|error| |unit result|unit error]; cbn [Page.step].
  - apply Hquiet, parent_connectedCallback_quiet.
  - destruct (render_spec (Parent.getData_then result (world s))) as [Hq Hl].
    assert (quiet (world s) (world (Page.render (Parent.getData_then result (world s)))))
      as Hq' by (eapply quiet_trans; [apply parent_getData_then_quiet|done]).
    destruct (quiet_invariant _ _ Hq' Hw Hff).
    split; [|by apply quiet_evolves]. split_and!; [done| |done].
    intros c l Hc' Hl'. rewrite (Hl c Hc') in Hl'. by apply elem_of_nil in Hl'.
  - apply Hquiet, handleError_quiet.
  - apply Hquiet, parent_getData_quiet.
  - apply (Hchild unit (Child.Resolved result)).
  - apply (Hchild unit (Child.Rejected error)).
Qed.

Lemma run_invariant steps s :
  page_invariant s →
  page_invariant (Page.run steps s) ∧ evolves (world s) (world (Page.run steps s)).
Proof.
  revert s. induction steps as [|e steps IH]; intros s Hs.
  - split; [done|apply evolves_refl].
  - destruct (step_invariant s e Hs) as [Hs1 Hev1].
    destruct (IH _ Hs1) as [Hs2 Hev2].
    split; [done|]. by eapply evolves_trans.
Qed.
End page_invariant.

(** ** The flags a child hands to the parent *)

Section error_flags.
Implicit Types (w : World) (c : ChildState.t).

Lemma heap_grows_refl w : heap_grows w w.
Proof. split; [done|]. intros. apply body_extended_refl. Qed.

Lemma heap_grows_trans w1 w2 w3 :
  heap_grows w1 w2 → heap_grows w2 w3 → heap_grows w1 w3.
Proof.
  intros [Hl Hb] [Hl' Hb']. split; [lia|].
  intros l ?. eapply body_extended_trans; [by apply Hb|]. apply Hb'. lia.
Qed.

Lemma heap_grows_same w w' : heap w' = heap w → heap_grows w w'.
Proof.
  intros H. unfold heap_grows. rewrite H. split; [done|].
  intros. apply body_extended_refl.
Qed.

Lemma merge_childFlag_grows w l : heap_grows w (Parent.merge_childFlag w l).
Proof.
  unfold Parent.merge_childFlag.
  destruct (Js.includes _ _); [|by apply heap_grows_same].
  destruct (ParentState.existingFlag (parent w)) as [|e0 es]; [apply heap_grows_refl|].
  destruct (negb _); [|apply heap_grows_refl].
  split; cbn [set_heap heap]; [by rewrite length_insert|].
  intros j Hj. destruct (decide (j = e0)) as [->|].
  - rewrite list_lookup_total_insert_eq by done. right. eauto.
  - rewrite list_lookup_total_insert_ne by done. apply body_extended_refl.
Qed.

Lemma handleChildRecordFlags_grows detail w :
  heap_grows w (Parent.handleChildRecordFlags detail w).
Proof.
  unfold Parent.handleChildRecordFlags.
  destruct (0 <? length detail); [|apply heap_grows_refl].
  cut (heap_grows w (fold_left Parent.merge_childFlag detail w)).
  { intros H. eapply heap_grows_trans; [done|]. by apply heap_grows_same. }
  revert w. induction detail as [|l detail IH]; intros w; [apply heap_grows_refl|].
  eapply heap_grows_trans; [apply merge_childFlag_grows|apply IH].
Qed.

(** The flags of the failing values are stored at the new locations,
    in order; the parent may have appended text to their bodies. *)
Lemma fold_handle_value_heap flagData k c w :
  let st := fold_left Child.handle_value (imap (λ i v, (k + i, v)) flagData) (c, w) in
  heap_grows w st.2 ∧
  Forall2 (λ l f, body_extended f (heap st.2 !!! l))
    (seq (length (heap w)) (Child.error_count flagData))
    (Child.error_flags_from k flagData).
Proof.
  revert k c w. induction flagData as [|v flagData IH]; intros k c w.
  - split; [apply heap_grows_refl|constructor].
  - rewrite imap_cons. cbn [fold_left]. rewrite Nat.add_0_r.
    assert (imap ((λ i v0, (k + i, v0)) ∘ S) flagData =
            imap (λ i v0, (S k + i, v0)) flagData) as ->.
    { apply imap_ext. intros i x _. cbn. f_equal. lia. }
    unfold Child.error_count.
    cbn [Child.handle_value Child.error_flags_from List.filter].
    destruct (Child.is_component_error v) eqn:Hv; [|apply IH].
    set (f := Child.make_flag k (Child.key_buttons v)).
    set (w0 := set_heap (heap w ++ [f]) w).
    set (c1 := ChildState.set_list _ c).
    set (w1 := Child.dispatch_errorreceive _ w0).
    assert (heap_grows w0 w1) as [Hl01 Hb01].
    { apply (handleChildRecordFlags_grows _ (emit _ w0)). }
    assert (length (heap w0) = S (length (heap w))) as Hlen0.
    { cbn [w0 set_heap heap]. rewrite length_app. simpl. lia. }
    assert (length (heap w1) = S (length (heap w))) as Hlen1.
    { unfold w1, Child.dispatch_errorreceive.
      by destruct (handleChildRecordFlags_frame (ChildState.list c1)
        (emit (ErrorReceive (ChildState.list c1)) w0)) as [_ ->]. }
    destruct (IH (S k) c1 w1) as [[Hl1 Hb1] Hnew]. rewrite Hlen1 in Hnew.
    split.
    + split; [lia|]. intros l Hl.
      eapply body_extended_trans; [|apply Hb1; lia].
      replace (heap w !!! l) with (heap w0 !!! l)
        by (cbn [w0 set_heap heap]; by rewrite lookup_total_app_l).
      apply Hb01. lia.
    + cbn [length seq app]. constructor; [|done].
      eapply body_extended_trans; [|apply Hb1; lia].
      assert (heap w0 !!! length (heap w) = f) as Hf.
      { cbn [w0 set_heap heap]. by rewrite lookup_total_app_r, Nat.sub_diag. }
      rewrite <-Hf at 1. apply Hb01. lia.
Qed.
End error_flags.

(** ** The copy of a flag through JSON *)

Lemma clone_id f : Flag.clone f = f.
Proof.
  destruct f as [[va h b [bs|]] k sd css hb ic]; unfold Flag.clone; cbn; [|done].
  do 3 f_equal. induction bs as [|[] bs IH]; cbn; [done|]. by f_equal.
Qed.

(** * The claims *)

(** ** C1: the body of the coalesced error flag *)

(** A failure whose reason is the body of the error flag as it stands
    changes nothing. *)
Lemma merge_same_reason w e0 es childFlag :
  coalesced w →
  ParentState.existingFlag (parent w) = e0 :: es →
  Js.strict_eq (Flag.body (heap w !!! e0)) (Flag.body (heap w !!! childFlag)) = true →
  Parent.merge_childFlag w childFlag = w.
Proof.
  intros Hw Hes Heq. unfold Parent.merge_childFlag.
  rewrite CE_existingFlag by done. by rewrite Hes, Heq.
Qed.

(** C1.  The body of the coalesced error flag is not the newline-joined
    set of the distinct reasons: when three units fail with the reasons
    [limit], [query] and [limit], the body has three entries, and
    [limit] is there twice.  The parent compares a new reason with the
    whole body, not with its entries. *)
Theorem repeated_reason_is_appended_again :
  Page.error_body
    (world (Page.run (Scenario.three_failures "limit" "query" "limit") Scenario.page))
  = Some ("limit" +:+ Js.LF +:+ "query" +:+ Js.LF +:+ "limit").
Proof. vm_compute. reflexivity. Qed.

(** The same happens with one unit that returns three failures with
    distinct reasons: the event carries the whole error list of the
    child each time, and the second reason is merged twice. *)
Lemma one_unit_three_reasons :
  Page.error_body
    (world (Page.run
       [Page.Start 1; Page.CatalogResolved Scenario.catalog3;
        Page.UnitResolved 0
          (Some [Scenario.failure "a"; Scenario.failure "b"; Scenario.failure "c"])]
       Scenario.page))
  = Some ("a" +:+ Js.LF +:+ "b" +:+ Js.LF +:+ "b" +:+ Js.LF +:+ "c").
Proof. vm_compute. reflexivity. Qed.

(** ** C2: at most one error flag *)

(** C2.  In every run of the page the parent holds at most one error
    flag; it is the first failure a child dispatched; once it is in
    [existingFlag] it stays there, at the same place, and all that
    happens to it afterwards is that text is appended to its body. *)
Theorem single_error_flag recordId objectApiName steps more :
  let s := Page.run steps (Page.init recordId objectApiName) in
  let s' := Page.run more s in
  length (ParentState.existingFlag (parent (world s'))) ≤ 1 ∧
  ParentState.existingFlag (parent (world s')) = first_failure (log (world s')) ∧
  ParentState.existingFlag (parent (world s)) `prefix_of`
    ParentState.existingFlag (parent (world s')) ∧
  Forall (λ e0, body_extended (heap (world s) !!! e0) (heap (world s') !!! e0))
    (ParentState.existingFlag (parent (world s))).
Proof.
  intros s s'.
  destruct (run_invariant steps _ (init_invariant recordId objectApiName))
    as [((Hlen & Hf) & _ & _) _].
  fold s in Hlen, Hf.
  assert (page_invariant s) as Hs
    by apply run_invariant, init_invariant.
  destruct (run_invariant more s Hs) as [((Hlen' & _) & _ & Hff') (_ & Hb & Hp)].
  fold s' in Hlen', Hff', Hb, Hp.
  split_and!; [done|done|done|].
  apply Forall_forall. intros e0 He0. apply Hb. by apply Hf.
Qed.

(** ** C3: the catalog call fails *)

(** C3.  When the call of [RecordFlags.getFetchers] rejects, the parent
    shows one toast and does nothing else: whatever the page was, no
    child is created, changed or invoked.  In a run that starts with
    such a failure the page has no flag and no child, no unit is ever
    invoked (there is no child whose call could settle), and the one
    toast is all that was dispatched. *)
Theorem catalog_failure_shows_one_toast recordId objectApiName id error :
  (∀ s, Page.step s (Page.CatalogRejected error) =
        mkSystem
          (emit (ShowToast "Error" (Parent.errorMessage error) "error") (world s))
          (children s)) ∧
  let s := Page.run [Page.Start id; Page.CatalogRejected error]
             (Page.init recordId objectApiName) in
  Page.flags s = [] ∧
  children s = [] ∧
  ParentState.existingFlag (parent (world s)) = [] ∧
  ParentState.haveFlags (parent (world s)) = false ∧
  log (world s) =
    [ApexGetFetchers recordId objectApiName; RegisterRefreshHandler id;
     ShowToast "Error" (Parent.errorMessage error) "error"] ∧
  List.filter Page.is_unit_call (log (world s)) = [] ∧
  List.filter Page.is_toast (log (world s)) =
    [ShowToast "Error" (Parent.errorMessage error) "error"] ∧
  ∀ unit o, Page.step s (Page.settles unit o) = s.
Proof.
  split; [done|]. cbn zeta. split_and!; try done.
  by intros unit [].
Qed.

(** ** C4: an empty response *)

(** An absent flag list is not handled as a success: reading the
    length of [null] throws in the [then] callback, the [catch]
    callback runs, and the child shows the error toast. *)
Lemma null_response_shows_error_toast :
  ¬ Child.handled_as_success
      (Scenario.pending_child, world Scenario.page)
      (Child.getData_then None Scenario.pending_child (world Scenario.page)).
Proof. intros (_ & Hlog & _). discriminate Hlog. Qed.

(** A response with an empty flag list is handled as a success: the
    child only sets [loading] to false, it adds no flag and dispatches
    nothing.  On an absent flag list the child adds no flag and
    dispatches no [errorreceive] either, and sets [loading] to false;
    what it does besides is to show the error toast. *)
Theorem empty_response_is_success c w :
  Child.getData_then (Some []) c w = (ChildState.set_loading false c, w) ∧
  Child.handled_as_success (c, w) (Child.getData_then (Some []) c w) ∧
  (let st := Child.getData_then None c w in
   ChildState.listOfRecordFlags st.1 = ChildState.listOfRecordFlags c ∧
   List.filter Page.is_errorreceive (log st.2) =
     List.filter Page.is_errorreceive (log w) ∧
   ChildState.loading st.1 = false ∧
   st = (ChildState.set_loading false c,
         emit (ShowToast "Error" "Something went wrong in recordFlags! " "error") w)).
Proof.
  split_and!; try done.
  cbn. by rewrite List.filter_app, app_nil_r.
Qed.

(** C4.  The code at the failing input.  An absent ([null]) flag list
    is the documented way of a fetcher to say that there is no flag,
    and an empty list is handled silently; but on [null]
    [handleRecordFlags] throws the [TypeError] of reading [length] of
    [null], so the [catch] callback of [getData] runs: the response is
    handled as a failure, with the error toast. *)
Theorem null_response_takes_the_error_path c w :
  Child.handleRecordFlags None c w = Throw JsError.type_error ∧
  Child.getData_then None c w = Child.getData_catch JsError.type_error c w ∧
  Child.getData_then None c w =
    (ChildState.set_loading false c,
     emit (ShowToast "Error" "Something went wrong in recordFlags! " "error") w) ∧
  Child.getData_then (Some []) c w = (ChildState.set_loading false c, w).
Proof. done. Qed.

(** ** C6: the loading indicator *)

(** C6.  [loading] is true when the child is created, and every
    transition of the child leaves it as it is unless the unit reports
    with it (the call resolves or rejects, or the child is connected
    without its inputs), in which case it becomes false.  So it is
    false after every completion, and once false it stays false. *)
Theorem loading_until_reported :
  (∀ e m r, ChildState.loading (ChildState.init e m r) = true) ∧
  ∀ op c w,
    ChildState.loading (Child.step op c w).1 =
    ChildState.loading c && negb (Child.completes op c).
Proof.
  split; [done|]. intros op c w.
  destruct op as [|[flagData|]| | | | |]; cbn [Child.step Child.completes];
    try by rewrite ?andb_false_r, ?andb_true_r.
  - unfold Child.connectedCallback. destruct (Child.has_inputs c); cbn [negb fst].
    + by rewrite andb_true_r.
    + by rewrite andb_false_r.
  - unfold Child.getData_then, Child.handleRecordFlags.
    destruct (if 0 <? length flagData then _ else _). by rewrite andb_false_r.
Qed.

(** ** C10: a child connected without its inputs *)

(** C10.  A child that is connected without both [record] and
    [mdtRecord] calls no Apex method and dispatches nothing; it adds
    one copy of [errorRecordFlag], when it has one, to the end of its
    rendered list, and nothing otherwise, and sets [loading] to false.
    The copy has the properties of the flag. *)
Theorem connected_without_inputs c w :
  Child.has_inputs c = false →
  (Child.connectedCallback c w).2 = w ∧
  ChildState.loading (Child.connectedCallback c w).1 = false ∧
  ChildState.list (Child.connectedCallback c w).1 = ChildState.list c ∧
  ChildState.listOfRecordFlags (Child.connectedCallback c w).1 =
    ChildState.listOfRecordFlags c ++
    match ChildState.errorRecordFlag c with
    | Some l => [Flag.clone (heap w !!! l)]
    | None => []
    end ∧
  ∀ f, Flag.clone f = f.
Proof.
  intros H. unfold Child.connectedCallback. rewrite H.
  destruct (ChildState.errorRecordFlag c) as [l|]; cbn;
    rewrite ?app_nil_r; split_and!; try done; apply clone_id.
Qed.

Lemma connected_without_inputs_witness :
  Child.has_inputs (ChildState.init (Some 0) None None) = false ∧
  ChildState.listOfRecordFlags
    (Child.connectedCallback (ChildState.init (Some 0) None None)
       (mkWorld [Child.make_flag 0 (Scenario.failure "limit")]
          (ParentState.init None None) [])).1
  = [] ++ [Child.make_flag 0 (Scenario.failure "limit")].
Proof.
  split; [reflexivity|].
  apply (connected_without_inputs (ChildState.init (Some 0) None None)
           (mkWorld [Child.make_flag 0 (Scenario.failure "limit")]
              (ParentState.init None None) [])).
  reflexivity.
Defined.

(** ** C9: what the child does with a failing value *)

Lemma normal_flags_without_error k flagData :
  Forall (λ f, Js.includes (Flag.stringify f) component_error = false)
    (Child.normal_flags_from k flagData).
Proof.
  revert k. induction flagData as [|v flagData IH]; intros k; [constructor|].
  cbn [Child.normal_flags_from].
  destruct (Child.is_component_error v) eqn:Hv; [apply IH|].
  constructor; [|apply IH]. by rewrite CE_make_flag.
Qed.

(** C9.  The child takes a value for a failure exactly when the JSON
    text of the value mentions [component_error] (that is the
    definition of [is_component_error], by which [normal_flags],
    [error_flags] and [error_count] select).  The flags of the other
    values are added to the rendered list, and none of them mentions
    the error.  The flag of each failing value is stored, added to the
    error list of the child, and an [errorreceive] event is dispatched
    whose detail is the whole error list of the child at that time.  A
    value whose header or body mentions the error is such a failing
    value, whatever it was meant to be. *)
Theorem failures_go_to_the_parent flagData c w :
  let st := Child.getData_then (Some flagData) c w in
  let h := length (heap w) in
  let n := Child.error_count flagData in
  ChildState.listOfRecordFlags st.1 =
    ChildState.listOfRecordFlags c ++ Child.normal_flags flagData ∧
  Forall (λ f, Js.includes (Flag.stringify f) component_error = false)
    (Child.normal_flags flagData) ∧
  ChildState.list st.1 = ChildState.list c ++ seq h n ∧
  Forall2 (λ l f, body_extended f (heap st.2 !!! l)) (seq h n)
    (Child.error_flags flagData) ∧
  log st.2 =
    log w ++ map (λ j, ErrorReceive (ChildState.list c ++ seq h (S j))) (seq 0 n) ∧
  ∀ value,
    Child.is_component_error value =
    Js.includes (RecordFlag.header value) component_error
    || match RecordFlag.body value with
       | Some b => Js.includes b component_error
       | None => false
       end
    || match RecordFlag.buttons value with
       | Some bs =>
           existsb (λ b, Js.includes (Button.name b) component_error
                         || Js.includes (Button.url b) component_error) bs
       | None => false
       end.
Proof.
  cbn zeta.
  pose proof (fold_handle_value flagData 0 c w) as H.
  pose proof (fold_handle_value_heap flagData 0 c w) as H'.
  cbn zeta in H, H'.
  change (imap (λ i v, (0 + i, v)) flagData) with (imap pair flagData) in H, H'.
  unfold Child.getData_then, Child.handleRecordFlags.
  assert ((if 0 <? length flagData
           then fold_left Child.handle_value (imap pair flagData) (c, w)
           else (c, w))
          = fold_left Child.handle_value (imap pair flagData) (c, w)) as ->
    by (by destruct flagData).
  destruct (fold_left _ _ _) as [c' w']. cbn [fst snd] in *.
  destruct H as (H1 & H2 & H3 & _). destruct H' as [_ H4].
  split_and!; [done|apply normal_flags_without_error|done|done|done|].
  apply is_component_error_fields.
Qed.

(** ** C5: the shared record is fetched once *)

Section apex_calls.
Implicit Types (w : World) (c : ChildState.t) (s : System).

Lemma apex_calls_app l1 l2 :
  Page.apex_calls (l1 ++ l2) = Page.apex_calls l1 ++ Page.apex_calls l2.
Proof. apply List.filter_app. Qed.

Lemma apex_calls_errorreceive {A} (f : A → list loc) (l : list A) :
  Page.apex_calls (map (λ x, ErrorReceive (f x)) l) = [].
Proof. induction l as [|x l IH]; [done|]. apply IH. Qed.

(** A call that settles issues no further call and leaves the inputs
    of the child alone. *)
Lemma child_settle_frame (o : Page.Outcome) c w :
  let st :=
    match o with
    | Page.Resolves result => Child.getData_then result c w
    | Page.Rejects error => Child.getData_catch error c w
    end in
  Page.apex_calls (log st.2) = Page.apex_calls (log w) ∧
  ChildState.record st.1 = ChildState.record c ∧
  ChildState.mdtRecord st.1 = ChildState.mdtRecord c.
Proof.
  destruct o as [[flagData|]|error]; cbn zeta.
  - pose proof (fold_handle_value flagData 0 c w) as H. cbn zeta in H.
    change (imap (λ i v, (0 + i, v)) flagData) with (imap pair flagData) in H.
    unfold Child.getData_then, Child.handleRecordFlags.
    assert ((if 0 <? length flagData
             then fold_left Child.handle_value (imap pair flagData) (c, w)
             else (c, w))
            = fold_left Child.handle_value (imap pair flagData) (c, w)) as ->
      by (by destruct flagData).
    destruct (fold_left _ _ _) as [c' w']. cbn [fst snd] in *.
    destruct H as (_ & _ & Hlog & _ & _ & _ & Hm & Hr).
    cbn [ChildState.set_loading ChildState.record ChildState.mdtRecord].
    by rewrite Hlog, Hm, Hr, apex_calls_app, apex_calls_errorreceive, app_nil_r.
  - cbn. by rewrite apex_calls_app, app_nil_r.
  - cbn. by rewrite apex_calls_app, app_nil_r.
Qed.

Lemma settles_frame unit o s :
  Page.apex_calls (log (world (Page.step s (Page.settles unit o)))) =
    Page.apex_calls (log (world s)) ∧
  map ChildState.record (children (Page.step s (Page.settles unit o))) =
    map ChildState.record (children s).
Proof.
  pose proof (λ c, child_settle_frame o c (world s)) as H.
  destruct o as [result|error]; cbn [Page.settles Page.step]; unfold Page.on_child;
    (destruct (children s !! unit) as [c|] eqn:Hu; [|done]);
    specialize (H c); cbn zeta in H;
    [destruct (Child.getData_then result c (world s)) as [c' w']
    |destruct (Child.getData_catch error c (world s)) as [c' w']];
    cbn [fst snd world children] in *;
    destruct H as (-> & Hr & _); (split; [done|]);
    rewrite list_fmap_insert, Hr;
    apply list_insert_id; by rewrite list_lookup_fmap, Hu.
Qed.

Lemma run_settles_frame (outcomes : list (nat * Page.Outcome)) s :
  let s' := Page.run (map (λ uo, Page.settles uo.1 uo.2) outcomes) s in
  Page.apex_calls (log (world s')) = Page.apex_calls (log (world s)) ∧
  map ChildState.record (children s') = map ChildState.record (children s).
Proof.
  revert s. induction outcomes as [|[unit o] outcomes IH]; intros s; [done|].
  cbn zeta in *. unfold Page.run in *. cbn [map fold_left fst snd].
  destruct (IH (Page.step s (Page.settles unit o))) as [-> ->].
  apply settles_frame.
Qed.

(** The children the template creates, and the calls they issue. *)
Lemma render_calls w :
  let r := ParentState.record (parent w) in
  let mdts := ParentState.listOfActiveMdt (parent w) in
  log (world (Page.render w)) =
    log w ++ match r with
             | Some _ => map (λ mdt, ApexInvokeFetcher r (Some mdt)) mdts
             | None => []
             end ∧
  map ChildState.record (children (Page.render w)) = map (λ _, r) mdts ∧
  map ChildState.mdtRecord (children (Page.render w)) = map Some mdts ∧
  parent (world (Page.render w)) = parent w.
Proof.
  cbn zeta. unfold Page.render.
  remember (ParentState.record (parent w)) as r eqn:Hr.
  cut (∀ mdts s, ParentState.record (parent (world s)) = r →
    let s' := fold_left Page.insert_child mdts s in
    log (world s') =
      log (world s) ++ match r with
                       | Some _ => map (λ mdt, ApexInvokeFetcher r (Some mdt)) mdts
                       | None => []
                       end ∧
    map ChildState.record (children s') =
      map ChildState.record (children s) ++ map (λ _, r) mdts ∧
    map ChildState.mdtRecord (children s') =
      map ChildState.mdtRecord (children s) ++ map Some mdts ∧
    parent (world s') = parent (world s)).
  { intros H. apply (H _ (mkSystem w [])). done. }
  clear Hr. induction mdts as [|mdt mdts IH]; intros s Hs; cbn zeta.
  - cbn [fold_left map]. rewrite !app_nil_r. destruct r; by rewrite app_nil_r.
  - cbn [fold_left].
    assert (world (Page.insert_child s mdt) =
              match r with
              | Some _ => emit (ApexInvokeFetcher r (Some mdt)) (world s)
              | None => world s
              end ∧
            ∃ c, children (Page.insert_child s mdt) = children s ++ [c] ∧
                 ChildState.record c = r ∧ ChildState.mdtRecord c = Some mdt)
      as (Hw & c & Hc & Hr & Hm).
    { unfold Page.insert_child, Child.connectedCallback, Child.has_inputs.
      rewrite Hs. cbn [ChildState.init ChildState.record ChildState.mdtRecord
        ChildState.errorRecordFlag].
      destruct r; cbn [Child.getData world children];
        (split; [done|]); eexists; (split; [done|]); done. }
    destruct (IH (Page.insert_child s mdt)) as (-> & -> & -> & ->).
    { rewrite Hw. by destruct r. }
    rewrite Hw, Hc, !map_app. cbn [map]. rewrite Hr, Hm.
    destruct r; cbn [emit log parent map]; by rewrite <-?app_assoc.
Qed.
End apex_calls.

(** C5.  In a run of the page (the parent is connected, the catalog
    call resolves, the calls of the units settle in any way and order)
    the only Apex calls are the one catalog call and, if it returned a
    shared record, one call per fetcher of the catalog, each of which
    carries that very record: every child holds the record the catalog
    call returned, and no child fetches one. *)
Theorem shared_record_fetched_once recordId objectApiName id result
    (outcomes : list (nat * Page.Outcome)) :
  let s := Page.run
             ([Page.Start id; Page.CatalogResolved result]
              ++ map (λ uo, Page.settles uo.1 uo.2) outcomes)
             (Page.init recordId objectApiName) in
  Page.apex_calls (log (world s)) =
    ApexGetFetchers recordId objectApiName ::
    match Fetchers.sharedData result with
    | Some _ =>
        map (λ mdt, ApexInvokeFetcher (Fetchers.sharedData result) (Some mdt))
          (Fetchers.fetchers result)
    | None => []
    end ∧
  map ChildState.record (children s) =
    map (λ _, Fetchers.sharedData result) (Fetchers.fetchers result).
Proof.
  cbn zeta. unfold Page.run. rewrite !fold_left_app.
  set (s0 := fold_left Page.step _ (Page.init recordId objectApiName)).
  destruct (run_settles_frame outcomes s0) as [H1 H2]. cbn zeta in H1, H2.
  unfold Page.run in H1, H2. rewrite H1, H2.
  destruct (render_calls
    (Parent.getData_then result
       (Parent.connectedCallback id (world (Page.init recordId objectApiName)))))
    as (Hlog & Hrec & _ & _).
  cbn zeta in Hlog, Hrec.
  change s0 with
    (Page.render
       (Parent.getData_then result
          (Parent.connectedCallback id (world (Page.init recordId objectApiName))))).
  clear s0 H1 H2. rewrite Hlog, Hrec.
  split; [|done].
  rewrite apex_calls_app.
  cbn [Parent.getData_then Parent.connectedCallback Parent.getData
       Page.init world parent emit set_parent log ParentState.init
       ParentState.refreshHandlerID ParentState.recordId ParentState.objectApiName
       ParentState.record ParentState.listOfActiveMdt app].
  cbn [Page.apex_calls List.filter Page.is_catalog_call Page.is_unit_call orb app].
  f_equal. destruct (Fetchers.sharedData result); [|done].
  induction (Fetchers.fetchers result) as [|mdt mdts IH]; [done|].
  cbn. by f_equal.
Qed.

(** ** C8: the order of the rendered flags *)

Section completion_order.
Implicit Types (w : World) (c : ChildState.t) (s : System).

(** [map] of the Standard Library is [fmap] of stdpp. *)
Lemma map_fmap {A B} (f : A → B) (l : list A) : map f l = f <$> l.
Proof. done. Qed.

(** A call that settles adds the flags of its outcome to the rendered
    list of its child, and touches no other list. *)
Lemma settles_flags unit o s :
  map ChildState.listOfRecordFlags (children (Page.step s (Page.settles unit o))) =
  alter (λ l, l ++ Page.rendered_by o) unit
    (map ChildState.listOfRecordFlags (children s)).
Proof.
  assert (∀ c,
    ChildState.listOfRecordFlags
      (match o with
       | Page.Resolves result => Child.getData_then result c (world s)
       | Page.Rejects error => Child.getData_catch error c (world s)
       end).1 = ChildState.listOfRecordFlags c ++ Page.rendered_by o) as H.
  { intros c. destruct o as [[flagData|]|error]; cbn; try by rewrite app_nil_r.
    pose proof (fold_handle_value flagData 0 c (world s)) as H. cbn zeta in H.
    change (imap (λ i v, (0 + i, v)) flagData) with (imap pair flagData) in H.
    unfold Child.getData_then, Child.handleRecordFlags.
    assert ((if 0 <? length flagData
             then fold_left Child.handle_value (imap pair flagData) (c, world s)
             else (c, world s))
            = fold_left Child.handle_value (imap pair flagData) (c, world s)) as ->
      by (by destruct flagData).
    destruct (fold_left _ _ _) as [c' w']. cbn [fst snd] in *. apply H. }
  rewrite !map_fmap.
  apply list_eq. intros j. rewrite list_lookup_alter, !list_lookup_fmap.
  destruct o as [result|error]; cbn [Page.settles Page.step]; unfold Page.on_child;
    (destruct (children s !! unit) as [c|] eqn:Hu;
      [|case_decide; subst; by rewrite ?Hu, ?list_lookup_fmap]);
    specialize (H c);
    [destruct (Child.getData_then result c (world s)) as [c' w']
    |destruct (Child.getData_catch error c (world s)) as [c' w']];
    cbn [fst children] in *;
    rewrite list_lookup_insert;
    (destruct (decide (unit = j)) as [->|Hne];
      [rewrite decide_True by (split; [done|by eapply lookup_lt_Some]);
       cbn; by rewrite H
      |by rewrite decide_False by (by intros [? _])]).
Qed.

Lemma run_settles_flags (outcome : nat → Page.Outcome) schedule s :
  map ChildState.listOfRecordFlags
    (children (Page.run (map (λ u, Page.settles u (outcome u)) schedule) s)) =
  fold_left (λ ls u, alter (λ l, l ++ Page.rendered_by (outcome u)) u ls) schedule
    (map ChildState.listOfRecordFlags (children s)).
Proof.
  revert s. induction schedule as [|u schedule IH]; intros s; [done|].
  unfold Page.run in *. cbn [map fold_left]. by rewrite IH, settles_flags.
Qed.

(** When no index is met twice, each slot gets what belongs to its
    index, whatever the order. *)
Lemma fold_alter_lookup {A} (g : nat → list A) schedule (ls : list (list A)) j :
  NoDup schedule →
  fold_left (λ ls u, alter (λ l, l ++ g u) u ls) schedule ls !! j =
  (λ l, if decide (j ∈ schedule) then l ++ g j else l) <$> ls !! j.
Proof.
  revert ls. induction schedule as [|u schedule IH]; intros ls Hnd.
  - cbn [fold_left]. destruct (ls !! j); cbn; [|done].
    by rewrite decide_False by apply not_elem_of_nil.
  - apply NoDup_cons in Hnd as [Hu Hnd]. cbn [fold_left].
    rewrite IH by done. rewrite list_lookup_alter.
    destruct (decide (u = j)) as [->|Hne].
    + destruct (ls !! j) as [l|]; [|done]. cbn.
      rewrite decide_False by done. by rewrite decide_True by (by left).
    + destruct (ls !! j) as [l|]; [|done]. cbn. f_equal.
      destruct (decide (j ∈ schedule)).
      * by rewrite decide_True by (by right).
      * rewrite decide_False; [done|].
        intros [->|?]%elem_of_cons; done.
Qed.

Lemma render_flags w :
  map ChildState.listOfRecordFlags (children (Page.render w)) =
  map (λ _, []) (ParentState.listOfActiveMdt (parent w)).
Proof.
  unfold Page.render.
  cut (∀ mdts s,
    map ChildState.listOfRecordFlags (children (fold_left Page.insert_child mdts s)) =
    map ChildState.listOfRecordFlags (children s) ++ map (λ _, []) mdts).
  { intros H. apply (H _ (mkSystem w [])). }
  induction mdts as [|mdt mdts IH]; intros s; cbn [fold_left map].
  - by rewrite app_nil_r.
  - rewrite IH. unfold Page.insert_child, Child.connectedCallback, Child.getData.
    destruct (Child.has_inputs _); cbn [children]; rewrite map_app;
      cbn; by rewrite <-app_assoc.
Qed.
End completion_order.

(** In a run in which the call of every unit of the catalog settles
    once, in any order, the page shows the flags of the first unit of
    the catalog response, then those of the second, and so on: the
    order in which the calls settle does not matter.  The components
    keep the order of the response; they do not sort it. *)
Theorem completion_order_independent recordId objectApiName id result
    (outcome : nat → Page.Outcome) (schedule : list nat) :
  schedule ≡ₚ seq 0 (length (Fetchers.fetchers result)) →
  Page.flags
    (Page.run
       ([Page.Start id; Page.CatalogResolved result]
        ++ map (λ u, Page.settles u (outcome u)) schedule)
       (Page.init recordId objectApiName))
  = concat (map (λ u, Page.rendered_by (outcome u))
              (seq 0 (length (Fetchers.fetchers result)))).
Proof.
  intros Hperm. unfold Page.flags. f_equal.
  unfold Page.run. rewrite fold_left_app. fold (Page.run (map (λ u, Page.settles u (outcome u)) schedule)).
  rewrite run_settles_flags.
  cbn [fold_left Page.step world Page.init]. rewrite render_flags.
  cbn [Parent.getData_then parent set_parent ParentState.listOfActiveMdt].
  assert (NoDup schedule) as Hnd.
  { rewrite Hperm. apply NoDup_seq. }
  rewrite !map_fmap.
  apply list_eq. intros j.
  rewrite (fold_alter_lookup (λ u, Page.rendered_by (outcome u))) by done.
  rewrite !list_lookup_fmap.
  destruct (decide (j < length (Fetchers.fetchers result))) as [Hj|Hj].
  - rewrite lookup_seq_lt by done.
    destruct (lookup_lt_is_Some_2 (Fetchers.fetchers result) j Hj) as [mdt ->].
    cbn. rewrite decide_True; [done|].
    rewrite Hperm. apply elem_of_seq. lia.
  - rewrite (lookup_ge_None_2 (Fetchers.fetchers result)) by lia.
    rewrite lookup_ge_None_2; [done|]. rewrite length_seq. lia.
Qed.

Lemma completion_order_independent_witness :
  [2; 0; 1] ≡ₚ seq 0 (length (Fetchers.fetchers Scenario.catalog3)) ∧
  Page.flags
    (Page.run
       ([Page.Start 1; Page.CatalogResolved Scenario.catalog3]
        ++ map (λ u, Page.settles u
                       (Page.Resolves
                          (Some [RecordFlag.mk WARNING (Js.index_to_string u) None None])))
             [2; 0; 1])
       Scenario.page)
  = concat (map (λ u, Page.rendered_by
                        (Page.Resolves
                           (Some [RecordFlag.mk WARNING (Js.index_to_string u) None None])))
              (seq 0 (length (Fetchers.fetchers Scenario.catalog3)))).
Proof.
  assert ([2; 0; 1] ≡ₚ seq 0 (length (Fetchers.fetchers Scenario.catalog3))) as H.
  { cbn. etrans; [apply perm_swap|]. apply perm_skip, perm_swap. }
  split; [exact H|].
  exact (completion_order_independent (Some "500000000000001") (Some "Case") 1
           Scenario.catalog3
           (λ u, Page.Resolves
                   (Some [RecordFlag.mk WARNING (Js.index_to_string u) None None]))
           [2; 0; 1] H).
Defined.

Lemma string_compare_lt_trans a b c :
  String.compare a b = Lt → String.compare b c = Lt → String.compare a c = Lt.
Proof.
  revert b c. induction a as [|x a IH]; intros [|y b] [|z c]; cbn; try done.
  unfold Ascii.compare.
  destruct (N.compare_spec (N_of_ascii x) (N_of_ascii y)) as [Hxy|Hxy|Hxy]; try done;
    destruct (N.compare_spec (N_of_ascii y) (N_of_ascii z)) as [Hyz|Hyz|Hyz]; try done;
    intros H1 H2.
  - rewrite Hxy, Hyz, N.compare_refl. by apply (IH b).
  - rewrite Hxy. by apply N.compare_lt_iff in Hyz as ->.
  - rewrite <-Hyz. by apply N.compare_lt_iff in Hxy as ->.
  - assert (N_of_ascii x < N_of_ascii z)%N as H by lia.
    by apply N.compare_lt_iff in H as ->.
Qed.

Lemma string_leb_trans a b c :
  String.leb a b = true → String.leb b c = true → String.leb a c = true.
Proof.
  unfold String.leb.
  destruct (String.compare a b) eqn:Hab; [| |done].
  - by apply String.compare_eq_iff in Hab as ->.
  - destruct (String.compare b c) eqn:Hbc; [| |done].
    + apply String.compare_eq_iff in Hbc as <-. by rewrite Hab.
    + by rewrite (string_compare_lt_trans a b c).
Qed.

Section catalog_order.
Context (unitId : Mdt.t → string).

Lemma unit_leb_total a b :
  Catalog.unit_leb unitId a b = true ∨ Catalog.unit_leb unitId b a = true.
Proof.
  unfold Catalog.unit_leb.
  destruct (Z.lt_trichotomy (Mdt.Order__c a) (Mdt.Order__c b)) as [H|[H|H]].
  - left. apply Z.ltb_lt in H. by rewrite H.
  - rewrite H, Z.eqb_refl, Z.ltb_irrefl. cbn.
    apply String.leb_total.
  - right. apply Z.ltb_lt in H. by rewrite H.
Qed.

Lemma insert_unit_HdRel x m l :
  Catalog.unit_leb unitId x m = true →
  HdRel (λ a b, Catalog.unit_leb unitId a b = true) x l →
  HdRel (λ a b, Catalog.unit_leb unitId a b = true) x (Catalog.insert_unit unitId m l).
Proof.
  intros Hxm Hl. destruct l as [|y l]; cbn; [by constructor|].
  destruct (Catalog.unit_leb unitId m y); constructor; [done|].
  by inversion Hl.
Qed.

Lemma insert_unit_sorted m l :
  Sorted (λ a b, Catalog.unit_leb unitId a b = true) l →
  Sorted (λ a b, Catalog.unit_leb unitId a b = true) (Catalog.insert_unit unitId m l).
Proof.
  induction 1 as [|x l Hl IH Hx]; cbn; [by repeat constructor|].
  destruct (Catalog.unit_leb unitId m x) eqn:Hm.
  - constructor; [by constructor|by constructor].
  - constructor; [done|]. apply insert_unit_HdRel; [|done].
    destruct (unit_leb_total m x) as [H|H]; [congruence|done].
Qed.

Lemma sort_units_sorted l :
  Sorted (λ a b, Catalog.unit_leb unitId a b = true) (Catalog.sort_units unitId l).
Proof. induction l as [|x l IH]; cbn; [constructor|by apply insert_unit_sorted]. Qed.

Lemma unit_leb_trans a b c :
  Catalog.unit_leb unitId a b = true → Catalog.unit_leb unitId b c = true →
  Catalog.unit_leb unitId a c = true.
Proof.
  unfold Catalog.unit_leb. intros Hab Hbc.
  apply orb_true_iff in Hab as [Hab|[Hab Hab']%andb_true_iff];
    apply orb_true_iff in Hbc as [Hbc|[Hbc Hbc']%andb_true_iff];
    apply orb_true_iff;
    rewrite ?Z.ltb_lt, ?Z.eqb_eq, ?andb_true_iff, ?Z.ltb_lt, ?Z.eqb_eq in *.
  - left. lia.
  - left. lia.
  - left. lia.
  - right. split; [lia|]. by apply (string_leb_trans _ (unitId b)).
Qed.

Lemma sort_units_strongly_sorted l :
  StronglySorted (λ a b, Catalog.unit_leb unitId a b = true)
    (Catalog.sort_units unitId l).
Proof.
  apply Sorted_StronglySorted; [|apply sort_units_sorted].
  intros a b c. apply unit_leb_trans.
Qed.

Lemma insert_unit_perm m l : Catalog.insert_unit unitId m l ≡ₚ m :: l.
Proof.
  induction l as [|x l IH]; cbn; [done|].
  destruct (Catalog.unit_leb unitId m x); [done|].
  rewrite IH. apply perm_swap.
Qed.

Lemma sort_units_perm l : Catalog.sort_units unitId l ≡ₚ l.
Proof.
  induction l as [|x l IH]; cbn; [done|]. by rewrite insert_unit_perm, IH.
Qed.
End catalog_order.

Lemma run_settles_mdt (outcome : nat → Page.Outcome) schedule s :
  map ChildState.mdtRecord
    (children (Page.run (map (λ u, Page.settles u (outcome u)) schedule) s)) =
  map ChildState.mdtRecord (children s).
Proof.
  revert s. induction schedule as [|u schedule IH]; intros s; [done|].
  unfold Page.run in *. cbn [map fold_left]. rewrite IH.
  pose proof (λ c, child_settle_frame (outcome u) c (world s)) as H.
  destruct (outcome u) as [result|error]; cbn [Page.settles Page.step];
    unfold Page.on_child;
    (destruct (children s !! u) as [c|] eqn:Hu; [|done]);
    specialize (H c); cbn zeta in H;
    [destruct (Child.getData_then result c (world s)) as [c' w']
    |destruct (Child.getData_catch error c (world s)) as [c' w']];
    cbn [fst snd world children] in *;
    destruct H as (_ & _ & Hm);
    rewrite !map_fmap, list_fmap_insert, Hm;
    apply list_insert_id; by rewrite list_lookup_fmap, Hu.
Qed.

(** C8.  The catalog that the page gets holds the eligible flag
    computations of the object, each once, in ascending order of their
    order key, ties broken by the unit identifier: every unit is at
    most every later one in that order.  The template creates
    the children in that order, and in a run in which the call of every
    unit settles once, in any order, the page shows the flags of the
    first unit of the catalog, then those of the second, and so on: the
    rendered sequence follows the catalog order, not the order in which
    the calls settle.  (The error entry is not among these flags.) *)
Theorem flags_follow_the_catalog_order (unitId : Mdt.t → string) held objectType
    descriptors payload recordId objectApiName id
    (outcome : nat → Page.Outcome) (schedule : list nat) :
  schedule ≡ₚ
    seq 0 (length (Fetchers.fetchers
                     (Catalog.getFetchers unitId held objectType descriptors payload))) →
  let result := Catalog.getFetchers unitId held objectType descriptors payload in
  let units := Fetchers.fetchers result in
  let s := Page.run
             ([Page.Start id; Page.CatalogResolved result]
              ++ map (λ u, Page.settles u (outcome u)) schedule)
             (Page.init recordId objectApiName) in
  StronglySorted (λ a b, Catalog.unit_leb unitId a b = true) units ∧
  units ≡ₚ
    List.filter (λ m, negb (Mdt.Is_Data_Fetcher__c m))
      (List.filter (Catalog.eligible held objectType) descriptors) ∧
  map ChildState.mdtRecord (children s) = map Some units ∧
  Page.flags s =
    concat (map (λ u, Page.rendered_by (outcome u)) (seq 0 (length units))).
Proof.
  intros Hperm. cbn zeta. split_and!.
  - apply sort_units_strongly_sorted.
  - apply sort_units_perm.
  - unfold Page.run. rewrite fold_left_app.
    fold (Page.run (map (λ u, Page.settles u (outcome u)) schedule)).
    rewrite run_settles_mdt. cbn [fold_left Page.step world Page.init].
    by destruct (render_calls
      (Parent.getData_then
         (Catalog.getFetchers unitId held objectType descriptors payload)
         (Parent.connectedCallback id
            (mkWorld [] (ParentState.init recordId objectApiName) []))))
      as (_ & _ & -> & _).
  - by apply completion_order_independent.
Qed.

Lemma flags_follow_the_catalog_order_witness :
  [2; 0; 1] ≡ₚ
    seq 0 (length (Fetchers.fetchers
                     (Catalog.getFetchers Scenario.class_name (λ _, true) "Case"
                        Scenario.descriptors (Some Scenario.shared)))) ∧
  Fetchers.fetchers
    (Catalog.getFetchers Scenario.class_name (λ _, true) "Case"
       Scenario.descriptors (Some Scenario.shared)) =
    [Scenario.mdt "A" 1; Scenario.mdt "B" 2; Scenario.mdt "C" 3] ∧
  Page.flags
    (Page.run
       ([Page.Start 1;
         Page.CatalogResolved
           (Catalog.getFetchers Scenario.class_name (λ _, true) "Case"
              Scenario.descriptors (Some Scenario.shared))]
        ++ map (λ u, Page.settles u
                       (Page.Resolves
                          (Some [RecordFlag.mk WARNING (Js.index_to_string u) None None])))
             [2; 0; 1])
       Scenario.page)
  = concat (map (λ u, Page.rendered_by
                        (Page.Resolves
                           (Some [RecordFlag.mk WARNING (Js.index_to_string u) None None])))
              (seq 0 3)).
Proof.
  assert ([2; 0; 1] ≡ₚ
    seq 0 (length (Fetchers.fetchers
                     (Catalog.getFetchers Scenario.class_name (λ _, true) "Case"
                        Scenario.descriptors (Some Scenario.shared))))) as H.
  { cbn. etrans; [apply perm_swap|]. apply perm_skip, perm_swap. }
  split; [exact H|]. split; [reflexivity|].
  exact (proj2 (proj2 (proj2
    (flags_follow_the_catalog_order Scenario.class_name (λ _, true) "Case"
       Scenario.descriptors (Some Scenario.shared)
       (Some "500000000000001") (Some "Case") 1
       (λ u, Page.Resolves
               (Some [RecordFlag.mk WARNING (Js.index_to_string u) None None]))
       [2; 0; 1] H)))).
Defined.

(** ** C7: a refresh *)

Section refresh.
Implicit Types (w : World).

(** The handler of the parent does not look at the log: it cannot
    tell which calls were issued before the event came. *)
Lemma merge_childFlag_emit e w l :
  Parent.merge_childFlag (emit e w) l = emit e (Parent.merge_childFlag w l).
Proof.
  unfold Parent.merge_childFlag.
  change (Parent.stringify_existingFlag (emit e w))
    with (Parent.stringify_existingFlag w).
  destruct (Js.includes _ _); [|done].
  cbn [emit parent heap].
  destruct (ParentState.existingFlag (parent w)); [done|].
  by destruct (negb _).
Qed.

Lemma handleChildRecordFlags_emit e detail w :
  Parent.handleChildRecordFlags detail (emit e w) =
  emit e (Parent.handleChildRecordFlags detail w).
Proof.
  unfold Parent.handleChildRecordFlags. destruct (0 <? length detail); [|done].
  cut (fold_left Parent.merge_childFlag detail (emit e w) =
       emit e (fold_left Parent.merge_childFlag detail w)); [by intros ->|].
  revert w. induction detail as [|l detail IH]; intros w; [done|].
  cbn [fold_left]. by rewrite merge_childFlag_emit, IH.
Qed.
End refresh.

(** The claim as stated fails: the failure of a unit of the first run
    is still in the state of the page after a refresh whose units all
    resolve with no flag; the page does not show what the second run
    alone produces. *)
Lemma superseded_failure_stays :
  Page.aggregate (Page.run Scenario.refresh_after_failure Scenario.page) ≠
  Page.aggregate (Page.run Scenario.newest_run_alone Scenario.page).
Proof. vm_compute. discriminate. Qed.

(** C7 (amended).  The components keep no run identifier.  A refresh
    only issues the catalog call again: the error flags of the parent,
    their bodies and [haveErrors] stay as they are.  The handler of the
    parent merges a failure after a refresh exactly as it would have
    merged it before, whichever run the child that dispatched it
    belongs to, and every catalog response that resolves replaces
    [listOfActiveMdt] and [record], whichever call it answers. *)
Theorem refresh_keeps_failures w detail result :
  Parent.handleRefresh w =
    emit (ApexGetFetchers (ParentState.recordId (parent w))
            (ParentState.objectApiName (parent w))) w ∧
  Page.failures (Parent.handleRefresh w) = Page.failures w ∧
  Page.failures (Parent.handleChildRecordFlags detail (Parent.handleRefresh w)) =
    Page.failures (Parent.handleChildRecordFlags detail w) ∧
  Page.failures (Parent.getData_then result w) = Page.failures w ∧
  ParentState.listOfActiveMdt (parent (Parent.getData_then result w)) =
    Fetchers.fetchers result ∧
  ParentState.record (parent (Parent.getData_then result w)) =
    Fetchers.sharedData result.
Proof.
  split_and!; try done.
  unfold Parent.handleRefresh, Parent.getData.
  by rewrite handleChildRecordFlags_emit.
Qed.

(** * Further properties of the components *)

(** ** The badges of the child *)

Section badges.
Implicit Types (c : ChildState.t) (k : string) (f : Flag.t).

Lemma set_listOfRecordFlags_id c :
  ChildState.set_listOfRecordFlags (ChildState.listOfRecordFlags c) c = c.
Proof. by destruct c. Qed.

Lemma set_listOfRecordFlags_twice l1 l2 c :
  ChildState.set_listOfRecordFlags l2 (ChildState.set_listOfRecordFlags l1 c) =
  ChildState.set_listOfRecordFlags l2 c.
Proof. done. Qed.

Lemma map_id_Forall {A} (g : A → A) (l : list A) :
  Forall (λ x, g x = x) l → map g l = l.
Proof. induction 1; cbn; [done|]. by f_equal. Qed.

Lemma flag_eta f :
  Flag.mk (Flag.value f) (Flag.key f) (Flag.showDetails f) (Flag.varientCSS f)
    (Flag.hasButtons f) (Flag.isClicked f) = f.
Proof. by destruct f. Qed.
End badges.

(** X1.  The four handlers of the badges change nothing but
    [showDetails] and [isClicked] of the rendered flags: the number of
    flags, their values, keys, styles and [hasButtons], the error list
    of the child, its inputs and [loading] stay as they are. *)
Theorem badges_change_the_popover_only :
  Forall (λ handler : string → ChildState.t → ChildState.t,
    ∀ elementKey c,
      let c' := handler elementKey c in
      map Flag.value (ChildState.listOfRecordFlags c') =
        map Flag.value (ChildState.listOfRecordFlags c) ∧
      map Flag.key (ChildState.listOfRecordFlags c') =
        map Flag.key (ChildState.listOfRecordFlags c) ∧
      map Flag.varientCSS (ChildState.listOfRecordFlags c') =
        map Flag.varientCSS (ChildState.listOfRecordFlags c) ∧
      map Flag.hasButtons (ChildState.listOfRecordFlags c') =
        map Flag.hasButtons (ChildState.listOfRecordFlags c) ∧
      ChildState.list c' = ChildState.list c ∧
      ChildState.loading c' = ChildState.loading c ∧
      ChildState.errorRecordFlag c' = ChildState.errorRecordFlag c ∧
      ChildState.mdtRecord c' = ChildState.mdtRecord c ∧
      ChildState.record c' = ChildState.record c)
    [Child.handleBadgeClick; Child.handleMouseOver; Child.handleMouseOut;
     Child.handlePopOverCancel].
Proof.
  assert (∀ g : string → Flag.t → Flag.t,
    (∀ k f, Flag.value (g k f) = Flag.value f ∧ Flag.key (g k f) = Flag.key f ∧
            Flag.varientCSS (g k f) = Flag.varientCSS f ∧
            Flag.hasButtons (g k f) = Flag.hasButtons f) →
    ∀ k c,
      let c' := ChildState.set_listOfRecordFlags
                  (map (g k) (ChildState.listOfRecordFlags c)) c in
      map Flag.value (ChildState.listOfRecordFlags c') =
        map Flag.value (ChildState.listOfRecordFlags c) ∧
      map Flag.key (ChildState.listOfRecordFlags c') =
        map Flag.key (ChildState.listOfRecordFlags c) ∧
      map Flag.varientCSS (ChildState.listOfRecordFlags c') =
        map Flag.varientCSS (ChildState.listOfRecordFlags c) ∧
      map Flag.hasButtons (ChildState.listOfRecordFlags c') =
        map Flag.hasButtons (ChildState.listOfRecordFlags c) ∧
      ChildState.list c' = ChildState.list c ∧
      ChildState.loading c' = ChildState.loading c ∧
      ChildState.errorRecordFlag c' = ChildState.errorRecordFlag c ∧
      ChildState.mdtRecord c' = ChildState.mdtRecord c ∧
      ChildState.record c' = ChildState.record c) as Hframe.
  { intros g Hg k c. cbn zeta.
    cbn [ChildState.set_listOfRecordFlags ChildState.listOfRecordFlags
         ChildState.list ChildState.loading ChildState.errorRecordFlag
         ChildState.mdtRecord ChildState.record].
    rewrite !map_map. split_and!; try done; apply map_ext; intros f; apply Hg. }
  assert (∀ (k' : string) f b (g1 g2 : Flag.t),
    (Flag.value g1 = Flag.value f ∧ Flag.key g1 = Flag.key f ∧
     Flag.varientCSS g1 = Flag.varientCSS f ∧ Flag.hasButtons g1 = Flag.hasButtons f) →
    g2 = f →
    Flag.value (if b : bool then g1 else g2) = Flag.value f ∧
    Flag.key (if b then g1 else g2) = Flag.key f ∧
    Flag.varientCSS (if b then g1 else g2) = Flag.varientCSS f ∧
    Flag.hasButtons (if b then g1 else g2) = Flag.hasButtons f) as Hif.
  { intros _ f [] g1 g2 H ->; [done|by split_and!]. }
  constructor.
  { intros k c. apply (Hframe (λ k flag,
       if String.eqb (Flag.key flag) k
       then Flag.set_isClicked true
              (Flag.set_showDetails
                 (if Child.nothing_to_show flag then false else true) flag)
       else flag)). intros k' f. by apply Hif. }
  constructor.
  { intros k c. apply (Hframe (λ k flag,
       if negb (Flag.isClicked flag) && String.eqb (Flag.key flag) k
       then Flag.set_showDetails
              (if Child.nothing_to_show flag then false
               else negb (Flag.showDetails flag)) flag
       else flag)). intros k' f. by apply Hif. }
  constructor.
  { intros k c. apply (Hframe (λ k flag,
       if negb (Flag.isClicked flag) && String.eqb (Flag.key flag) k
       then Flag.set_showDetails
              (if Child.nothing_to_show flag then false
               else negb (Flag.showDetails flag)) flag
       else flag)). intros k' f. by apply Hif. }
  constructor; [|constructor].
  intros k c. apply (Hframe (λ k flag,
       if String.eqb (Flag.key flag) k
       then Flag.set_isClicked false (Flag.set_showDetails false flag)
       else flag)). intros k' f. by apply Hif.
Qed.

(** X2.  Moving the pointer onto a badge and off it again leaves the
    child as it was, provided no flag without body and buttons shows
    its details (which holds for the flags the child builds). *)
Theorem hover_in_and_out_restores elementKey c :
  Forall (λ f, Child.popover_ok f = true) (ChildState.listOfRecordFlags c) →
  Child.handleMouseOut elementKey (Child.handleMouseOver elementKey c) = c.
Proof.
  intros Hok. unfold Child.handleMouseOut, Child.handleMouseOver.
  cbn [ChildState.set_listOfRecordFlags ChildState.listOfRecordFlags].
  rewrite set_listOfRecordFlags_twice, map_map.
  rewrite map_id_Forall; [apply set_listOfRecordFlags_id|].
  eapply Forall_impl; [exact Hok|]. intros f Hf. cbn beta.
  unfold Child.popover_ok in Hf.
  destruct (negb (Flag.isClicked f) && String.eqb (Flag.key f) elementKey) eqn:Hm;
    [|by rewrite Hm].
  cbn [Flag.set_showDetails Flag.isClicked Flag.key]. rewrite Hm.
  unfold Child.nothing_to_show, Flag.body in *.
  cbn [Flag.set_showDetails Flag.value Flag.hasButtons Flag.showDetails].
  destruct f as [v key sd css hb ic]; cbn in *.
  destruct (negb (Js.truthy_string (RecordFlag.body v)) && negb hb), sd;
    cbn in *; try done.
Qed.

Lemma hover_in_and_out_restores_witness :
  Child.handleMouseOut "key_0"
    (Child.handleMouseOver "key_0"
       (ChildState.set_listOfRecordFlags
          [Child.make_flag 0 (Scenario.failure "limit")] Scenario.pending_child))
  = ChildState.set_listOfRecordFlags
      [Child.make_flag 0 (Scenario.failure "limit")] Scenario.pending_child.
Proof.
  apply (hover_in_and_out_restores "key_0"
           (ChildState.set_listOfRecordFlags
              [Child.make_flag 0 (Scenario.failure "limit")] Scenario.pending_child)).
  repeat constructor.
Defined.

(** X3.  A click pins the details of a badge: after a click on a
    badge, moving the pointer onto or off any badge changes no flag
    with the key of the clicked one. *)
Theorem click_pins_the_popover clicked hovered c :
  let c' := Child.handleBadgeClick clicked c in
  let with_key l := List.filter (λ f, String.eqb (Flag.key f) clicked) l in
  with_key (ChildState.listOfRecordFlags (Child.handleMouseOver hovered c')) =
    with_key (ChildState.listOfRecordFlags c') ∧
  with_key (ChildState.listOfRecordFlags (Child.handleMouseOut hovered c')) =
    with_key (ChildState.listOfRecordFlags c') ∧
  Forall (λ f, Flag.isClicked f = true) (with_key (ChildState.listOfRecordFlags c')).
Proof.
  cbn zeta. unfold Child.handleMouseOver, Child.handleMouseOut, Child.handleBadgeClick.
  cbn [ChildState.set_listOfRecordFlags ChildState.listOfRecordFlags].
  rewrite !map_map.
  induction (ChildState.listOfRecordFlags c) as [|f l (IH1 & IH2 & IH3)];
    [by split_and!; [| |constructor]|].
  cbn [map List.filter].
  destruct (String.eqb (Flag.key f) clicked) eqn:Hk.
  - cbn [Flag.set_isClicked Flag.set_showDetails Flag.isClicked Flag.key negb andb].
    rewrite Hk. by split_and!; [f_equal|f_equal|constructor].
  - assert (Flag.key
              (if negb (Flag.isClicked f) && String.eqb (Flag.key f) hovered
               then Flag.set_showDetails
                      (if Child.nothing_to_show f then false
                       else negb (Flag.showDetails f)) f
               else f) = Flag.key f) as Hkey by (by destruct (_ && _)).
    by rewrite Hkey, Hk.
Qed.

(** X4.  Closing the popover undoes a click: closing after a click on
    the same badge gives what closing alone gives; a second click, and
    a second closing, change nothing. *)
Theorem cancel_undoes_click elementKey c :
  Child.handlePopOverCancel elementKey (Child.handleBadgeClick elementKey c) =
    Child.handlePopOverCancel elementKey c ∧
  Child.handlePopOverCancel elementKey (Child.handlePopOverCancel elementKey c) =
    Child.handlePopOverCancel elementKey c ∧
  Child.handleBadgeClick elementKey (Child.handleBadgeClick elementKey c) =
    Child.handleBadgeClick elementKey c.
Proof.
  unfold Child.handlePopOverCancel, Child.handleBadgeClick.
  cbn [ChildState.set_listOfRecordFlags ChildState.listOfRecordFlags].
  rewrite !set_listOfRecordFlags_twice, !map_map.
  split_and!; f_equal; apply map_ext; intros f;
    destruct (String.eqb (Flag.key f) elementKey) eqn:Hk;
    cbn [Flag.set_isClicked Flag.set_showDetails Flag.key]; by rewrite ?Hk.
Qed.

(** ** The details of a flag that has none *)

Section popover.
Implicit Types (c : ChildState.t) (f : Flag.t).

Lemma popover_ok_closed f : Flag.showDetails f = false → Child.popover_ok f = true.
Proof. unfold Child.popover_ok. intros ->. by rewrite andb_false_r. Qed.

Lemma popover_ok_normal_flags k flagData :
  Forall (λ f, Child.popover_ok f = true) (Child.normal_flags_from k flagData).
Proof.
  revert k. induction flagData as [|v flagData IH]; intros k; [constructor|].
  cbn [Child.normal_flags_from].
  destruct (Child.is_component_error v); [apply IH|].
  constructor; [by apply popover_ok_closed|apply IH].
Qed.

Lemma popover_ok_map (g : Flag.t → Flag.t) (l : list Flag.t) :
  (∀ f, Child.popover_ok f = true → Child.popover_ok (g f) = true) →
  Forall (λ f, Child.popover_ok f = true) l →
  Forall (λ f, Child.popover_ok f = true) (map g l).
Proof. intros Hg. induction 1; cbn; constructor; auto. Qed.
End popover.

(** X5.  A flag that has neither a body nor buttons never shows
    details: if that holds for the rendered flags of a child, it holds
    after every transition of the child but the insertion (which
    copies [errorRecordFlag] as it is); the flags a response adds are
    closed. *)
Theorem popover_invariant op c w :
  op ≠ Child.Connected →
  Forall (λ f, Child.popover_ok f = true) (ChildState.listOfRecordFlags c) →
  Forall (λ f, Child.popover_ok f = true)
    (ChildState.listOfRecordFlags (Child.step op c w).1).
Proof.
  intros Hop Hok.
  assert (∀ f b, Child.popover_ok f = true →
            Child.popover_ok
              (Flag.set_showDetails
                 (if Child.nothing_to_show f then false else b) f) = true) as Hshow.
  { intros [v k sd css hb ic] b _. unfold Child.popover_ok, Child.nothing_to_show.
    cbn. by destruct (negb _ && negb hb). }
  destruct op as [|[flagData|]|error|k|k|k|k]; cbn [Child.step fst]; try done.
  - pose proof (fold_handle_value flagData 0 c w) as H. cbn zeta in H.
    change (imap (λ i v, (0 + i, v)) flagData) with (imap pair flagData) in H.
    unfold Child.getData_then, Child.handleRecordFlags.
    assert ((if 0 <? length flagData
             then fold_left Child.handle_value (imap pair flagData) (c, w)
             else (c, w))
            = fold_left Child.handle_value (imap pair flagData) (c, w)) as ->
      by (by destruct flagData).
    destruct (fold_left _ _ _) as [c' w']. cbn [fst snd] in *.
    destruct H as (H & _).
    cbn [ChildState.set_loading ChildState.listOfRecordFlags]. rewrite H.
    apply Forall_app. split; [done|apply popover_ok_normal_flags].
  - apply popover_ok_map; [|done]. intros f Hf.
    destruct (String.eqb _ _); [|done]. apply (Hshow f true Hf).
  - apply popover_ok_map; [|done]. intros f Hf.
    destruct (_ && _); [|done]. by apply Hshow.
  - apply popover_ok_map; [|done]. intros f Hf.
    destruct (_ && _); [|done]. by apply Hshow.
  - apply popover_ok_map; [|done]. intros f Hf.
    destruct (String.eqb _ _); [|done]. by apply popover_ok_closed.
Qed.

Lemma popover_invariant_witness :
  Forall (λ f, Child.popover_ok f = true)
    (ChildState.listOfRecordFlags
       (Child.step (Child.Resolved (Some [RecordFlag.mk NORMAL "Open 3 Days" None None]))
          Scenario.pending_child (world Scenario.page)).1).
Proof.
  apply (popover_invariant
           (Child.Resolved (Some [RecordFlag.mk NORMAL "Open 3 Days" None None]))
           Scenario.pending_child (world Scenario.page)).
  - discriminate.
  - constructor.
Defined.

(** ** The keys the child gives to flags and buttons *)

Section keys.
Lemma index_to_string_inj i j : Js.index_to_string i = Js.index_to_string j → i = j.
Proof.
  unfold Js.index_to_string. intros H.
  apply (f_equal NilEmpty.uint_of_string) in H. rewrite !NilEmpty.usu in H.
  injection H as H. apply (f_equal Nat.of_uint) in H.
  by rewrite !DecimalNat.Unsigned.of_to in H.
Qed.

Lemma prefixed_index_inj prefix i j :
  prefix +:+ Js.index_to_string i = prefix +:+ Js.index_to_string j → i = j.
Proof.
  induction prefix as [|x prefix IH]; cbn; [apply index_to_string_inj|].
  intros H. injection H as H. by apply IH.
Qed.

Lemma normal_flags_keys k flagData f :
  f ∈ Child.normal_flags_from k flagData →
  ∃ i, k ≤ i ∧ Flag.key f = "key_" +:+ Js.index_to_string i.
Proof.
  revert k. induction flagData as [|v flagData IH]; intros k;
    cbn [Child.normal_flags_from]; [by intros ?%elem_of_nil|].
  intros [Hf|Hf]%elem_of_app.
  - destruct (Child.is_component_error v); [by apply elem_of_nil in Hf|].
    apply list_elem_of_singleton in Hf as ->. by exists k.
  - destruct (IH _ Hf) as (i & ? & ?). exists i. split; [lia|done].
Qed.

Lemma keyed_buttons (g : nat → string) (bs : list Button.t) :
  map Button.name (imap (λ i, Button.set_key (g i)) bs) = map Button.name bs ∧
  map Button.url (imap (λ i, Button.set_key (g i)) bs) = map Button.url bs ∧
  map Button.key (imap (λ i, Button.set_key (g i)) bs) =
    map (λ i, Some (g i)) (seq 0 (length bs)).
Proof.
  revert g. induction bs as [|b bs IH]; intros g; [done|].
  rewrite imap_cons. cbn [map length seq].
  destruct (IH (g ∘ S)) as (H1 & H2 & H3).
  change (imap ((λ i, Button.set_key (g i)) ∘ S) bs)
    with (imap (λ i, Button.set_key ((g ∘ S) i)) bs).
  rewrite H1, H2, H3.
  split_and!; try done. f_equal.
  by rewrite <-seq_shift, map_map.
Qed.

Lemma button_keys_distinct n :
  NoDup (map (λ i, Some ("button_" +:+ Js.index_to_string i)) (seq 0 n)).
Proof.
  rewrite map_fmap. apply NoDup_fmap_2_strong; [|apply NoDup_seq].
  intros i j _ _ H. apply (prefixed_index_inj "button_"). congruence.
Qed.
End keys.

(** X6.  The rendered flags of a response carry the values of the
    response that are no failures, in the order of the response (with
    the keys of the buttons set), and their keys are pairwise distinct:
    an event on a badge concerns one flag of the response. *)
Theorem rendered_flags_of_a_response flagData :
  map Flag.value (Child.normal_flags flagData) =
    map Child.key_buttons
      (List.filter (λ v, negb (Child.is_component_error v)) flagData) ∧
  NoDup (map Flag.key (Child.normal_flags flagData)).
Proof.
  unfold Child.normal_flags. generalize 0 as k. intros k. split.
  - revert k. induction flagData as [|v flagData IH]; intros k; [done|].
    cbn [Child.normal_flags_from List.filter].
    destruct (Child.is_component_error v); cbn [negb app map]; by rewrite IH.
  - revert k. induction flagData as [|v flagData IH]; intros k; [constructor|].
    cbn [Child.normal_flags_from].
    destruct (Child.is_component_error v); cbn [app map]; [apply IH|].
    apply NoDup_cons. split; [|apply IH].
    rewrite map_fmap. intros (f & Hkey & Hf)%list_elem_of_fmap.
    apply normal_flags_keys in Hf as (i & Hi & Hf). rewrite Hf in Hkey.
    cbn [Child.make_flag Flag.key] in Hkey.
    apply prefixed_index_inj in Hkey. lia.
Qed.

(** X7.  The child numbers the buttons of a value: the button at
    position [i] gets the key [button_i], whatever key it had, so the
    keys of the buttons of a flag are pairwise distinct; names,
    addresses and the number of buttons stay, and so do the other
    properties of the value. *)
Theorem buttons_are_numbered value :
  RecordFlag.variant (Child.key_buttons value) = RecordFlag.variant value ∧
  RecordFlag.header (Child.key_buttons value) = RecordFlag.header value ∧
  RecordFlag.body (Child.key_buttons value) = RecordFlag.body value ∧
  option_map (map Button.name) (RecordFlag.buttons (Child.key_buttons value)) =
    option_map (map Button.name) (RecordFlag.buttons value) ∧
  option_map (map Button.url) (RecordFlag.buttons (Child.key_buttons value)) =
    option_map (map Button.url) (RecordFlag.buttons value) ∧
  option_map (map Button.key) (RecordFlag.buttons (Child.key_buttons value)) =
    option_map
      (λ bs, map (λ i, Some ("button_" +:+ Js.index_to_string i)) (seq 0 (length bs)))
      (RecordFlag.buttons value) ∧
  match RecordFlag.buttons (Child.key_buttons value) with
  | Some bs => NoDup (map Button.key bs)
  | None => True
  end.
Proof.
  destruct value as [va h b [bs|]];
    cbn [Child.key_buttons RecordFlag.set_buttons RecordFlag.variant
         RecordFlag.header RecordFlag.body RecordFlag.buttons option_map];
    [|done].
  destruct (keyed_buttons (λ i, "button_" +:+ Js.index_to_string i) bs)
    as (-> & -> & ->).
  split_and!; try done. apply button_keys_distinct.
Qed.

(** ** Where the values of a response go *)

Section response.
Lemma getData_then_Some flagData c w :
  Child.getData_then (Some flagData) c w =
  (ChildState.set_loading false
     (fold_left Child.handle_value (imap (λ i v, (0 + i, v)) flagData) (c, w)).1,
   (fold_left Child.handle_value (imap (λ i v, (0 + i, v)) flagData) (c, w)).2).
Proof.
  unfold Child.getData_then, Child.handleRecordFlags.
  change (imap (λ i v, (0 + i, v)) flagData) with (imap pair flagData).
  destruct flagData; [done|]. cbn [length Nat.ltb Nat.leb].
  by destruct (fold_left _ _ _).
Qed.

Lemma normal_flags_count k flagData :
  length (Child.normal_flags_from k flagData) + Child.error_count flagData =
  length flagData.
Proof.
  revert k. unfold Child.error_count.
  induction flagData as [|v flagData IH]; intros k; [done|].
  cbn [Child.normal_flags_from List.filter].
  destruct (Child.is_component_error v); cbn [app length]; rewrite <-(IH (S k)); lia.
Qed.

Lemma normal_flags_nonempty k flagData :
  (0 <? length (Child.normal_flags_from k flagData)) =
  existsb (λ v, negb (Child.is_component_error v)) flagData.
Proof.
  revert k. induction flagData as [|v flagData IH]; intros k; [done|].
  cbn [Child.normal_flags_from existsb].
  destruct (Child.is_component_error v); [apply IH|done].
Qed.
End response.

(** X8.  Every value of a response ends in exactly one of the two
    lists of the child, the rendered flags or the error list; the
    child has flags to show after the response exactly if it had some
    before or some value of the response is no failure. *)
Theorem every_value_goes_to_one_list flagData c w :
  let st := Child.getData_then (Some flagData) c w in
  length (ChildState.listOfRecordFlags st.1) + length (ChildState.list st.1) =
    length (ChildState.listOfRecordFlags c) + length (ChildState.list c)
    + length flagData ∧
  Child.haveFlags st.1 =
    Child.haveFlags c
    || existsb (λ v, negb (Child.is_component_error v)) flagData.
Proof.
  cbn zeta. rewrite getData_then_Some.
  destruct (fold_handle_value flagData 0 c w) as (H1 & H2 & _).
  unfold Child.haveFlags.
  cbn [fst ChildState.set_loading ChildState.listOfRecordFlags ChildState.list].
  rewrite H1, H2, !length_app, length_seq.
  pose proof (normal_flags_count 0 flagData) as Hn.
  pose proof (normal_flags_nonempty 0 flagData) as He.
  split; [lia|]. rewrite <-He.
  destruct (ChildState.listOfRecordFlags c), (Child.normal_flags_from 0 flagData); done.
Qed.

(** ** The life cycle of the parent *)

Section lifecycle.
Implicit Types (w : World) (op : Lifecycle.Op).

Lemma merge_childFlag_fields w l :
  let p := parent w in
  let p' := parent (Parent.merge_childFlag w l) in
  ParentState.recordId p' = ParentState.recordId p ∧
  ParentState.objectApiName p' = ParentState.objectApiName p ∧
  ParentState.haveFlags p' = ParentState.haveFlags p ∧
  ParentState.haveErrors p' = ParentState.haveErrors p ∧
  ParentState.listOfActiveMdt p' = ParentState.listOfActiveMdt p ∧
  ParentState.record p' = ParentState.record p ∧
  ParentState.refreshHandlerID p' = ParentState.refreshHandlerID p.
Proof.
  cbn zeta. unfold Parent.merge_childFlag.
  destruct (Js.includes _ _); [|done].
  destruct (ParentState.existingFlag (parent w)); [done|].
  by destruct (negb _).
Qed.

(** The handler of the child failures leaves the catalog, the shared
    record and the refresh handler of the parent alone. *)
Lemma handleChildRecordFlags_fields detail w :
  let p := parent w in
  let p' := parent (Parent.handleChildRecordFlags detail w) in
  ParentState.recordId p' = ParentState.recordId p ∧
  ParentState.objectApiName p' = ParentState.objectApiName p ∧
  ParentState.haveFlags p' = ParentState.haveFlags p ∧
  ParentState.haveErrors p' = ParentState.haveErrors p || (0 <? length detail) ∧
  ParentState.listOfActiveMdt p' = ParentState.listOfActiveMdt p ∧
  ParentState.record p' = ParentState.record p ∧
  ParentState.refreshHandlerID p' = ParentState.refreshHandlerID p.
Proof.
  cbn zeta. unfold Parent.handleChildRecordFlags.
  destruct (0 <? length detail); [|by rewrite orb_false_r].
  cbn [parent set_parent Parent.set_haveErrors ParentState.recordId
       ParentState.objectApiName ParentState.haveFlags ParentState.haveErrors
       ParentState.listOfActiveMdt ParentState.record ParentState.refreshHandlerID].
  rewrite orb_true_r.
  cut (let p := parent w in
       let p' := parent (fold_left Parent.merge_childFlag detail w) in
       ParentState.recordId p' = ParentState.recordId p ∧
       ParentState.objectApiName p' = ParentState.objectApiName p ∧
       ParentState.haveFlags p' = ParentState.haveFlags p ∧
       ParentState.listOfActiveMdt p' = ParentState.listOfActiveMdt p ∧
       ParentState.record p' = ParentState.record p ∧
       ParentState.refreshHandlerID p' = ParentState.refreshHandlerID p).
  { cbn zeta. intros (? & ? & ? & ? & ? & ?). by split_and!. }
  revert w. induction detail as [|l detail IH]; intros w; [done|].
  cbn zeta in *. cbn [fold_left].
  destruct (IH (Parent.merge_childFlag w l)) as (-> & -> & -> & -> & -> & ->).
  destruct (merge_childFlag_fields w l) as (? & ? & ? & _ & ? & ? & ?).
  by split_and!.
Qed.

Lemma step_effects w op :
  let r := ParentState.refreshHandlerID (parent w) in
  ParentState.refreshHandlerID (parent (Lifecycle.step w op)) =
    match op with
    | Lifecycle.Connected id => if Js.truthy_number r then r else Some id
    | _ => r
    end ∧
  List.filter Lifecycle.is_registration (log (Lifecycle.step w op)) =
    List.filter Lifecycle.is_registration (log w) ++
    match op, r with
    | Lifecycle.Connected id, _ =>
        if Js.truthy_number r then [] else [RegisterRefreshHandler id]
    | Lifecycle.Disconnected, Some (S n) => [UnregisterRefreshHandler (S n)]
    | _, _ => []
    end ∧
  Page.apex_calls (log (Lifecycle.step w op)) =
    Page.apex_calls (log w) ++
    match op with
    | Lifecycle.Connected _ | Lifecycle.Refreshed =>
        [ApexGetFetchers (ParentState.recordId (parent w))
           (ParentState.objectApiName (parent w))]
    | _ => []
    end ∧
  ParentState.recordId (parent (Lifecycle.step w op)) = ParentState.recordId (parent w) ∧
  ParentState.objectApiName (parent (Lifecycle.step w op)) =
    ParentState.objectApiName (parent w).
Proof.
  cbn zeta. destruct op as [id| | |result|error|detail]; cbn [Lifecycle.step].
  6:{ destruct (handleChildRecordFlags_fields detail w) as (-> & -> & _ & _ & _ & _ & ->).
      destruct (handleChildRecordFlags_frame detail w) as [-> _].
      rewrite !app_nil_r.
      by destruct (ParentState.refreshHandlerID (parent w)) as [[|n]|]. }
  all: destruct w as [h [rid obj hf he mdts ex rec [[|r]|]] lg];
    unfold Page.apex_calls; cbn; rewrite ?List.filter_app; cbn;
    by rewrite ?app_nil_r, <-?app_assoc.
Qed.

Lemma run_registered ops w n :
  ParentState.refreshHandlerID (parent w) = Some (S n) →
  ParentState.refreshHandlerID (parent (Lifecycle.run ops w)) = Some (S n) ∧
  List.filter Lifecycle.is_registration (log (Lifecycle.run ops w)) =
    List.filter Lifecycle.is_registration (log w) ++
    replicate (Lifecycle.disconnections ops) (UnregisterRefreshHandler (S n)).
Proof.
  revert w. induction ops as [|op ops IH]; intros w Hr.
  - by rewrite app_nil_r.
  - unfold Lifecycle.run in *. cbn [fold_left].
    destruct (step_effects w op) as (Hr' & Hlog & _). cbn zeta in Hr', Hlog.
    rewrite Hr in Hr', Hlog. cbn [Js.truthy_number] in Hr', Hlog.
    destruct (IH (Lifecycle.step w op)) as [-> ->]; [by destruct op|].
    split; [done|]. rewrite Hlog, <-app_assoc. f_equal.
    by destruct op.
Qed.

Lemma run_catalog_calls ops w :
  Page.apex_calls (log (Lifecycle.run ops w)) =
  Page.apex_calls (log w) ++
  replicate (Lifecycle.catalog_requests ops)
    (ApexGetFetchers (ParentState.recordId (parent w))
       (ParentState.objectApiName (parent w))).
Proof.
  revert w. induction ops as [|op ops IH]; intros w.
  - by rewrite app_nil_r.
  - unfold Lifecycle.run in *. cbn [fold_left]. rewrite IH.
    destruct (step_effects w op) as (_ & _ & -> & -> & ->).
    rewrite <-app_assoc. f_equal. by destruct op.
Qed.
End lifecycle.

(** X9.  The parent registers a refresh handler in every
    [connectedCallback] until [registerRefreshHandler] has returned a
    truthy identifier (one that is not 0); until then a
    [disconnectedCallback] does nothing.  From then on no
    [connectedCallback] registers a handler, every
    [disconnectedCallback] unregisters that identifier (again), and
    [refreshHandlerID] keeps it: it is never cleared. *)
Theorem refresh_handler_registered_until_truthy recordId objectApiName ops :
  let w := Lifecycle.run ops (world (Page.init recordId objectApiName)) in
  ParentState.refreshHandlerID (parent w) = Lifecycle.handler_id None ops ∧
  List.filter Lifecycle.is_registration (log w) = Lifecycle.registrations ops.
Proof.
  cbn zeta.
  cut (∀ w, Js.truthy_number (ParentState.refreshHandlerID (parent w)) = false →
    ParentState.refreshHandlerID (parent (Lifecycle.run ops w)) =
      Lifecycle.handler_id (ParentState.refreshHandlerID (parent w)) ops ∧
    List.filter Lifecycle.is_registration (log (Lifecycle.run ops w)) =
      List.filter Lifecycle.is_registration (log w) ++ Lifecycle.registrations ops).
  { intros H. by apply (H (world (Page.init recordId objectApiName))). }
  induction ops as [|op ops IH]; intros w Hr.
  - by rewrite app_nil_r.
  - destruct (step_effects w op) as (Hr' & Hlog & _). cbn zeta in Hr', Hlog.
    change (Lifecycle.run (op :: ops) w) with (Lifecycle.run ops (Lifecycle.step w op)).
    assert (∀ n, ParentState.refreshHandlerID (parent w) ≠ Some (S n)) as Hfalsy
      by (intros n Hn; by rewrite Hn in Hr).
    destruct op as [[|n]| | |result|error|detail];
      cbn [Lifecycle.handler_id Lifecycle.registrations]; rewrite ?Hr in Hr', Hlog.
    + destruct (IH (Lifecycle.step w (Lifecycle.Connected 0))) as [-> ->];
        [by rewrite Hr'|]. by rewrite Hr', Hlog, <-app_assoc.
    + destruct (run_registered ops _ n Hr') as [-> ->].
      by rewrite Hlog, <-app_assoc.
    + destruct (IH (Lifecycle.step w Lifecycle.Disconnected)) as [-> ->];
        [by rewrite Hr'|]. rewrite Hr', Hlog.
      destruct (ParentState.refreshHandlerID (parent w)) as [[|n]|];
        [by rewrite app_nil_r|by destruct (Hfalsy n)|by rewrite app_nil_r].
    + destruct (IH (Lifecycle.step w Lifecycle.Refreshed)) as [-> ->];
        [by rewrite Hr'|]. by rewrite Hr', Hlog, app_nil_r.
    + destruct (IH (Lifecycle.step w (Lifecycle.Resolved result))) as [-> ->];
        [by rewrite Hr'|]. by rewrite Hr', Hlog, app_nil_r.
    + destruct (IH (Lifecycle.step w (Lifecycle.Rejected error))) as [-> ->];
        [by rewrite Hr'|]. by rewrite Hr', Hlog, app_nil_r.
    + destruct (IH (Lifecycle.step w (Lifecycle.ChildFailed detail))) as [-> ->];
        [by rewrite Hr'|]. rewrite Hr', Hlog.
      by destruct (ParentState.refreshHandlerID (parent w)) as [[|n]|];
        rewrite app_nil_r.
Qed.

(** X10.  The parent calls [RecordFlags.getFetchers] once in every
    [connectedCallback] and once in every [handleRefresh], always for
    its [recordId] and [objectApiName], and nowhere else; it never
    calls [RecordFlags.invokeFetcher]. *)
Theorem parent_calls_the_catalog_only recordId objectApiName ops :
  Page.apex_calls
    (log (Lifecycle.run ops (world (Page.init recordId objectApiName)))) =
  replicate (Lifecycle.catalog_requests ops) (ApexGetFetchers recordId objectApiName).
Proof. by rewrite run_catalog_calls. Qed.

(** ** [haveErrors] and the error flag *)

Section have_errors.
Implicit Types (w : World) (c : ChildState.t) (s : System).

Lemma errors_recorded_quiet w w' :
  quiet w w' →
  ParentState.haveErrors (parent w') = ParentState.haveErrors (parent w) →
  errors_recorded w → errors_recorded w'.
Proof. intros (_ & _ & Hf) He. unfold errors_recorded. by rewrite Hf, He. Qed.

Lemma errors_recorded_dispatch detail w :
  errors_recorded w → errors_recorded (Child.dispatch_errorreceive detail w).
Proof.
  unfold errors_recorded, Child.dispatch_errorreceive. intros Hw.
  destruct (handleChildRecordFlags_fields detail (emit (ErrorReceive detail) w))
    as (_ & _ & _ & -> & _).
  destruct (handleChildRecordFlags_frame detail (emit (ErrorReceive detail) w))
    as [-> _].
  cbn [emit parent log]. rewrite first_failure_app, Hw.
  destruct (first_failure (log w)); by destruct detail.
Qed.

Lemma errors_recorded_fold ivs c w :
  errors_recorded w →
  errors_recorded (fold_left Child.handle_value ivs (c, w)).2.
Proof.
  revert c w. induction ivs as [|[i v] ivs IH]; intros c w Hw; [done|].
  cbn [fold_left Child.handle_value].
  destruct (Child.is_component_error v); [|by apply IH].
  apply IH. by apply errors_recorded_dispatch.
Qed.

Lemma errors_recorded_settle (o : Page.Outcome) c w :
  errors_recorded w →
  errors_recorded
    (match o with
     | Page.Resolves result => Child.getData_then result c w
     | Page.Rejects error => Child.getData_catch error c w
     end).2.
Proof.
  intros Hw. destruct o as [[flagData|]|error].
  - rewrite getData_then_Some. cbn [snd]. by apply errors_recorded_fold.
  - eapply errors_recorded_quiet; [apply handleError_quiet|done|done].
  - eapply errors_recorded_quiet; [apply handleError_quiet|done|done].
Qed.

Lemma errors_recorded_step s e :
  errors_recorded (world s) → errors_recorded (world (Page.step s e)).
Proof.
  intros Hw.
  assert (∀ unit o, errors_recorded (world (Page.step s (Page.settles unit o)))) as H.
  { intros unit o. pose proof (λ c, errors_recorded_settle o c (world s) Hw) as H.
    destruct o as [result|error]; cbn [Page.settles Page.step]; unfold Page.on_child;
      (destruct (children s !! unit) as [c|]; [|done]); specialize (H c);
      [destruct (Child.getData_then result c (world s))
      |destruct (Child.getData_catch error c (world s))]; done. }
  destruct e as [id|result|error| |unit result|unit error]; cbn [Page.step world].
  - eapply errors_recorded_quiet; [apply parent_connectedCallback_quiet| |done].
    unfold Parent.connectedCallback. by destruct (negb _).
  - destruct (render_spec (Parent.getData_then result (world s))) as [Hq _].
    destruct (render_calls (Parent.getData_then result (world s))) as (_ & _ & _ & Hp).
    eapply errors_recorded_quiet; [exact Hq|by rewrite Hp|].
    eapply errors_recorded_quiet; [apply parent_getData_then_quiet|done|done].
  - eapply errors_recorded_quiet; [apply handleError_quiet|done|done].
  - eapply errors_recorded_quiet; [apply parent_getData_quiet|done|done].
  - apply (H unit (Page.Resolves result)).
  - apply (H unit (Page.Rejects error)).
Qed.

Lemma errors_recorded_run steps s :
  errors_recorded (world s) → errors_recorded (world (Page.run steps s)).
Proof.
  revert s. induction steps as [|e steps IH]; intros s Hs; [done|].
  apply IH. by apply errors_recorded_step.
Qed.
End have_errors.

(** X11.  In every run of the page, [haveErrors] is true exactly when
    the parent holds an error flag: both are set by the first failure
    a child dispatches, and neither is ever reset, not by a refresh
    either. *)
Theorem haveErrors_iff_error_flag recordId objectApiName steps :
  let w := world (Page.run steps (Page.init recordId objectApiName)) in
  ParentState.haveErrors (parent w) =
  match ParentState.existingFlag (parent w) with [] => false | _ => true end.
Proof.
  cbn zeta.
  destruct (run_invariant steps _ (init_invariant recordId objectApiName))
    as [(_ & _ & ->) _].
  by apply errors_recorded_run.
Qed.

(** ** More on the handler of the child failures *)

Section merging.
Implicit Types (w : World) (l : loc).

Lemma strict_eq_refl o : Js.strict_eq o o = true.
Proof. destruct o; [apply String.eqb_refl|done]. Qed.

Lemma merge_childFlag_prefix w c :
  ParentState.existingFlag (parent w) `prefix_of`
  ParentState.existingFlag (parent (Parent.merge_childFlag w c)).
Proof.
  unfold Parent.merge_childFlag.
  destruct (Js.includes _ _); [|by apply prefix_app_r].
  destruct (ParentState.existingFlag (parent w)) eqn:He; [by rewrite He|].
  destruct (negb _); cbn [set_heap parent]; by rewrite He.
Qed.

Lemma merge_childFlag_store w c l :
  heap (Parent.merge_childFlag w c) !!! l = heap w !!! l ∨
  head (ParentState.existingFlag (parent (Parent.merge_childFlag w c))) = Some l.
Proof.
  unfold Parent.merge_childFlag.
  destruct (Js.includes _ _); [|by left].
  destruct (ParentState.existingFlag (parent w)) as [|e0 es] eqn:He; [by left|].
  destruct (negb _); [|by left]. cbn [set_heap heap parent]. rewrite He.
  destruct (decide (l = e0)) as [->|]; [by right|left].
  by rewrite list_lookup_total_insert_ne.
Qed.

Lemma head_prefix (l1 l2 : list loc) x :
  l1 `prefix_of` l2 → head l1 = Some x → head l2 = Some x.
Proof. intros [k ->]. by destruct l1. Qed.

Lemma fold_merge_store detail w l :
  let w' := fold_left Parent.merge_childFlag detail w in
  ParentState.existingFlag (parent w) `prefix_of` ParentState.existingFlag (parent w') ∧
  (heap w' !!! l = heap w !!! l ∨
   head (ParentState.existingFlag (parent w')) = Some l).
Proof.
  revert w. induction detail as [|c detail IH]; intros w; cbn zeta; [by split; [|left]|].
  cbn [fold_left]. destruct (IH (Parent.merge_childFlag w c)) as [Hp Hs]. cbn zeta in *.
  split; [etrans; [apply merge_childFlag_prefix|done]|].
  destruct Hs as [->|Hs]; [|by right].
  destruct (merge_childFlag_store w c l) as [->|Hh]; [by left|right].
  by eapply head_prefix.
Qed.
End merging.

(** X12.  The handler of the child failures changes one object of the
    store at most, the first error flag of the parent, and only its
    body, by appending; it adds no object, removes no error flag,
    writes nothing to the log, and leaves the catalog, the shared
    record and the refresh handler of the parent alone. *)
Theorem child_failures_touch_one_flag detail w :
  let w' := Parent.handleChildRecordFlags detail w in
  log w' = log w ∧
  length (heap w') = length (heap w) ∧
  heap_grows w w' ∧
  ParentState.existingFlag (parent w) `prefix_of` ParentState.existingFlag (parent w') ∧
  (∀ l, heap w' !!! l = heap w !!! l ∨
        head (ParentState.existingFlag (parent w')) = Some l) ∧
  ParentState.listOfActiveMdt (parent w') = ParentState.listOfActiveMdt (parent w) ∧
  ParentState.record (parent w') = ParentState.record (parent w) ∧
  ParentState.haveFlags (parent w') = ParentState.haveFlags (parent w) ∧
  ParentState.refreshHandlerID (parent w') = ParentState.refreshHandlerID (parent w).
Proof.
  cbn zeta.
  destruct (handleChildRecordFlags_frame detail w) as [Hlog Hlen].
  destruct (handleChildRecordFlags_fields detail w) as (_ & _ & Hf & _ & Hm & Hr & Hid).
  split_and!; try done; [apply handleChildRecordFlags_grows| |];
    unfold Parent.handleChildRecordFlags;
    (destruct (0 <? length detail); [|by try left]);
    cbn [set_parent parent heap Parent.set_haveErrors ParentState.existingFlag].
  - apply (fold_merge_store detail w 0).
  - intros l. apply (fold_merge_store detail w l).
Qed.

(** X13.  The branch of the handler that reads [existingFlag[0]] is
    only taken when [existingFlag] has a first element: the text of an
    empty array mentions no error. *)
Theorem first_error_flag_is_there w :
  Js.includes (Parent.stringify_existingFlag w) component_error = true →
  ∃ e0 es, ParentState.existingFlag (parent w) = e0 :: es.
Proof.
  unfold Parent.stringify_existingFlag. intros H.
  destruct (ParentState.existingFlag (parent w)) as [|e0 es]; [discriminate H|].
  by exists e0, es.
Qed.

(** X14.  A failure that is the error flag of the parent itself (a
    child sends its whole error list with every event, so its first
    error is delivered again and again) is never merged a second
    time. *)
Theorem own_flag_is_not_merged_again w e0 es :
  coalesced w →
  ParentState.existingFlag (parent w) = e0 :: es →
  Parent.merge_childFlag w e0 = w.
Proof.
  intros Hw He. unfold Parent.merge_childFlag.
  rewrite CE_existingFlag by done. by rewrite He, strict_eq_refl.
Qed.

Lemma error_world_coalesced : coalesced Scenario.error_world.
Proof.
  split; [cbn; lia|]. intros l ->%list_elem_of_singleton.
  split; [cbn; lia|]. vm_compute. reflexivity.
Defined.

Lemma first_error_flag_is_there_witness :
  ∃ e0 es, ParentState.existingFlag (parent Scenario.error_world) = e0 :: es.
Proof.
  apply (first_error_flag_is_there Scenario.error_world).
  vm_compute. reflexivity.
Defined.

Lemma own_flag_is_not_merged_again_witness :
  Parent.merge_childFlag Scenario.error_world 0 = Scenario.error_world.
Proof.
  apply (own_flag_is_not_merged_again Scenario.error_world 0 []).
  - exact error_world_coalesced.
  - reflexivity.
Defined.

(** ** Failures with one reason *)

Section one_reason.
Implicit Types (w : World) (l : loc).

Lemma merge_identical w c reason :
  coalesced w → is_failure w c →
  Flag.body (heap w !!! c) = Some reason →
  (∀ l, l ∈ ParentState.existingFlag (parent w) →
        Flag.body (heap w !!! l) = Some reason) →
  heap (Parent.merge_childFlag w c) = heap w ∧
  ParentState.existingFlag (parent (Parent.merge_childFlag w c)) =
    match ParentState.existingFlag (parent w) with [] => [c] | es => es end.
Proof.
  intros Hw Hc Hb He. unfold Parent.merge_childFlag.
  rewrite CE_existingFlag by done.
  destruct (ParentState.existingFlag (parent w)) as [|e0 es] eqn:Hes.
  - cbn [set_parent heap parent Parent.set_existingFlag ParentState.existingFlag].
    by rewrite ?Hes.
  - rewrite (He e0), Hb by (by left). cbn [Js.strict_eq].
    rewrite String.eqb_refl. cbn [negb]. by rewrite ?Hes.
Qed.
End one_reason.

(** X15.  Failures that all carry the same reason leave that reason in
    the body of the error flag once: when the parent holds no error
    flag, or one whose body is that reason, handling any number of such
    failures changes no object of the store, and the body of the error
    flag is the reason. *)
Theorem identical_reasons_are_kept_once detail w reason :
  coalesced w →
  (∀ l, l ∈ detail →
        is_failure w l ∧ Flag.body (heap w !!! l) = Some reason) →
  (∀ l, l ∈ ParentState.existingFlag (parent w) →
        Flag.body (heap w !!! l) = Some reason) →
  heap (Parent.handleChildRecordFlags detail w) = heap w ∧
  Page.error_body (Parent.handleChildRecordFlags detail w) =
    match ParentState.existingFlag (parent w), detail with
    | [], [] => None
    | _, _ => Some reason
    end.
Proof.
  intros Hw Hd He.
  cut (heap (fold_left Parent.merge_childFlag detail w) = heap w ∧
       ParentState.existingFlag (parent (fold_left Parent.merge_childFlag detail w)) =
         match ParentState.existingFlag (parent w), detail with
         | [], c :: _ => [c]
         | es, _ => es
         end).
  { intros [Hh Hex]. unfold Page.error_body, Parent.handleChildRecordFlags.
    destruct detail as [|c detail].
    - cbn [length Nat.ltb Nat.leb]. split; [done|].
      destruct (ParentState.existingFlag (parent w)) as [|e0 es] eqn:Hes; [done|].
      apply He. by left.
    - cbn [length Nat.ltb Nat.leb set_parent heap parent Parent.set_haveErrors
           ParentState.existingFlag].
      rewrite Hh, Hex. split; [done|].
      destruct (ParentState.existingFlag (parent w)) as [|e0 es] eqn:Hes.
      + apply Hd. by left.
      + apply He. by left. }
  revert w Hw Hd He. induction detail as [|c detail IH]; intros w Hw Hd He.
  - split; [done|]. cbn [fold_left].
    by destruct (ParentState.existingFlag (parent w)).
  - cbn [fold_left].
    destruct (Hd c) as [Hc Hb]; [by left|].
    destruct (merge_identical w c reason Hw Hc Hb He) as [Hh Hex].
    destruct (merge_childFlag_spec w c Hw Hc) as (Hw1 & _).
    destruct (IH (Parent.merge_childFlag w c)) as [-> ->]; [done| | |].
    + intros l Hl. destruct (Hd l) as [[? ?] ?]; [by right|].
      unfold is_failure. by rewrite Hh.
    + intros l Hl. rewrite Hh, Hex in *.
      destruct (ParentState.existingFlag (parent w)) as [|e0 es] eqn:Hes.
      * apply list_elem_of_singleton in Hl as ->. done.
      * by apply He.
    + split; [done|]. rewrite Hex.
      by destruct (ParentState.existingFlag (parent w)), detail.
Qed.

Lemma identical_reasons_are_kept_once_witness :
  heap (Parent.handleChildRecordFlags [0; 1; 1] Scenario.error_world) =
    heap Scenario.error_world ∧
  Page.error_body (Parent.handleChildRecordFlags [0; 1; 1] Scenario.error_world) =
    Some "limit".
Proof.
  apply (identical_reasons_are_kept_once [0; 1; 1] Scenario.error_world "limit").
  - exact error_world_coalesced.
  - intros l Hl.
    assert (l = 0 ∨ l = 1) as [-> | ->].
    { apply elem_of_cons in Hl as [->|Hl]; [by left|]. right.
      apply elem_of_cons in Hl as [->|Hl]; [done|].
      by apply list_elem_of_singleton in Hl. }
    + split; [split; [cbn; lia|vm_compute; reflexivity]|reflexivity].
    + split; [split; [cbn; lia|vm_compute; reflexivity]|reflexivity].
  - intros l ->%list_elem_of_singleton. reflexivity.
Defined.

(** ** The toast of [handleError] *)

(** X16.  The message of the toast always starts with
    [Something went wrong in recordFlags! ].  The message of the first
    error of [error.body.output.errors] follows when there is one,
    whatever [error.body.message] says (and [undefined] follows when
    that first error has no message); otherwise [error.body.message]
    follows if it is not empty; an error without these, such as the
    [TypeError] of a [null] response, gives the bare prefix. *)
Theorem error_message_of_the_toast error :
  Js.startsWith (Parent.errorMessage error) "Something went wrong in recordFlags! "
    = true ∧
  (∀ e es message,
     Parent.errorMessage (JsError.mk (Some (JsError.mk_body (Some (e :: es)) message))) =
     "Something went wrong in recordFlags! " +:+ Js.to_string (JsError.entry_message e)) ∧
  Forall (λ errors,
    ∀ message,
      Parent.errorMessage (JsError.mk (Some (JsError.mk_body errors message))) =
      "Something went wrong in recordFlags! "
      +:+ match message with Some m => m | None => "" end)
    [None; Some []] ∧
  Parent.errorMessage JsError.type_error = "Something went wrong in recordFlags! ".
Proof.
  split_and!; try done.
  - unfold Parent.errorMessage.
    destruct (JsError.body error) as [[[[|e es]|] m]|]; cbn [JsError.output_errors
      JsError.message]; try done; try apply startsWith_refl_app;
      (destruct (Js.truthy_string m); [apply startsWith_refl_app|done]).
  - repeat constructor; intros [m|]; cbn; try done; by destruct m.
Qed.

(** ** A call that rejects *)

(** X17.  A unit whose call rejects is reported by a toast of its
    child and by nothing else: the child stops loading, the flags of
    the page, the error flag of the parent and [haveErrors] stay as
    they are, and no [errorreceive] is dispatched. *)
Theorem rejected_call_gives_a_toast_only unit error s :
  let s' := Page.step s (Page.UnitRejected unit error) in
  Page.flags s' = Page.flags s ∧
  Page.failures (world s') = Page.failures (world s) ∧
  log (world s') =
    log (world s) ++
    match children s !! unit with
    | Some _ => [ShowToast "Error" (Parent.errorMessage error) "error"]
    | None => []
    end ∧
  ChildState.loading <$> children s' !! unit = (λ _, false) <$> children s !! unit.
Proof.
  cbn zeta. cbn [Page.step]. unfold Page.on_child, Page.flags.
  destruct (children s !! unit) as [c|] eqn:Hu; [|by rewrite ?Hu, app_nil_r].
  cbn [Child.getData_catch world children].
  split_and!; try done.
  - f_equal. rewrite !map_fmap, list_fmap_insert.
    apply list_insert_id. by rewrite list_lookup_fmap, Hu.
  - rewrite list_lookup_insert_eq by (by eapply lookup_lt_Some). done.
Qed.
